(** * The draw engine of the lucky-draw reel ([Slot], with its caller [app.ts])

    A shallow embedding of [src/assets/js/Slot.ts] and of the part of
    [src/assets/js/app.ts] that configures it.

    - JavaScript arrays are lists; a position that holds [undefined] (or a
      read out of range) is [None], so an array of strings whose reads may
      miss is a [list (option string)].
    - [Math.random()] is an oracle: a stream of numbers of the unit interval
      [0,1), read through a cursor.
    - The engine is an object mutated in place: its methods are programs of a
      state-and-exception monad over a [World] (the [Slot] instance, the
      [#current-player] element, the trace of observable effects, the random
      stream).  An [async] method is cut at its [await]s: timers are events of
      the trace, and [spin] is given in two halves around
      [await animationPromise]. *)

From stdpp Require Import base tactics option list strings.
From Stdlib Require Import ZArith Lia.

Local Open Scope Z_scope.
Local Open Scope nat_scope.

(** ** JavaScript arrays *)

Section js_array.
Context {A : Type}.

(** [a[i]] on an array whose positions may hold [undefined]. *)
Definition js_get (a : list (option A)) (i : nat) : option A :=
  mjoin (a !! i).

(** [a[i] = v]: in range the position is overwritten, out of range the
    array grows, the positions in between being holes. *)
Definition js_set (i : nat) (v : option A) (a : list (option A)) : list (option A) :=
  if i <? length a then <[i:=v]> a
  else a ++ replicate (i - length a) None ++ [v].

(** [a[a.length - 1]]: index [-1] names no element of an empty array. *)
Definition js_last (a : list (option A)) : option A :=
  match length a with
  | 0 => None
  | S i => js_get a i
  end.

(** [a.slice(0, e)] for an integer [e]; a negative [e] counts from the end. *)
Definition slice0 (e : Z) (a : list A) : list A :=
  let len := Z.of_nat (length a) in
  let final := if (e <? 0)%Z then Z.max (len + e) 0 else Z.min e len in
  take (Z.to_nat final) a.

(** [a.splice(start, 1)], the array that remains. *)
Definition splice1 (start : Z) (a : list A) : list A :=
  let len := Z.of_nat (length a) in
  let actualStart :=
    if (start <? 0)%Z then Z.max (len + start) 0 else Z.min start len in
  delete (Z.to_nat actualStart) a.

(** [a.findIndex(p)]: the first position that satisfies [p], or [-1]. *)
Definition findIndex (p : A → bool) (a : list A) : Z :=
  match list_find (λ x, p x = true) a with
  | Some (i, _) => Z.of_nat i
  | None => (-1)%Z
  end.
End js_array.

(** ** The random source *)

(** A number of [0,1): [numer / (numer + gap + 1)]. *)
Record unit_interval := { numer : N; gap : N }.

(** [Math.random() * n | 0] and [Math.floor(Math.random() * n)]: the integer
    part of the product (the two agree on the non-negative numbers below
    [2^31], where array lengths live). *)
Definition scale_floor (x : unit_interval) (n : nat) : nat :=
  N.to_nat (numer x * N.of_nat n / (numer x + gap x + 1)).

(** ** The shuffle *)

Section shuffle.
Context {T : Type}.

(** [Object.keys(array)] of a dense array, read as the indices they name. *)
Definition Object_keys (array : list T) : list (option nat) :=
  Some <$> seq 0 (length array).

(** The [for] loop of [shuffleNames], by recursion on its counter [n].  The
    three arrays the loop can reach are threaded through it: [array] (the
    caller's), [keys] and [result] (its own).  [pos] is the cursor into the
    random stream.  The loop hands back the caller's array and [result]. *)
Fixpoint shuffle_loop (rnd : nat → unit_interval) (n : nat) (k : nat)
    (array : list T) (keys : list (option nat)) (result : list (option T))
    (pos : nat) : list T * list (option T) * nat :=
  match n with
  | 0 => (array, result, pos)
  | S n' =>
      if k <? length array then
        let i := scale_floor (rnd pos) n in
        let key := js_get keys i in
        let result := result ++ [key ≫= (array !!.)] in
        let tmp := js_get keys n' in
        let keys := js_set n' key keys in
        let keys := js_set i tmp keys in
        shuffle_loop rnd n' (k + 1) array keys result (S pos)
      else (array, result, pos)
  end.

Definition shuffleNames (rnd : nat → unit_interval) (array : list T) (pos : nat)
    : list T * list (option T) * nat :=
  let keys := Object_keys array in
  shuffle_loop rnd (length keys) 0 array keys [] pos.

Definition shuffleLuckyMoneys (rnd : nat → unit_interval) (array : list T) (pos : nat)
    : list T * list (option T) * nat :=
  let keys := Object_keys array in
  shuffle_loop rnd (length keys) 0 array keys [] pos.
End shuffle.

(** ** Building a reel sequence *)

Section reel_sequence.
Context {A : Type}.

(** [while (xs.length && xs.length < maxReelItems) xs = [...xs, ...xs]].
    A non-empty array at least doubles at each turn, so [maxReelItems]
    turns are enough ([pad_loop_fuel] below); [pad] runs the loop with that
    many. *)
Fixpoint pad_loop (fuel : nat) (maxReelItems : Z) (xs : list A) : list A :=
  match fuel with
  | 0 => xs
  | S fuel' =>
      if negb (length xs =? 0) && (Z.of_nat (length xs) <? maxReelItems)%Z
      then pad_loop fuel' maxReelItems (xs ++ xs)
      else xs
  end.

Definition pad (maxReelItems : Z) (xs : list A) : list A :=
  pad_loop (Z.to_nat maxReelItems) maxReelItems xs.
End reel_sequence.

(** [Number(b)] *)
Definition Number (b : bool) : Z := if b then 1%Z else 0%Z.

(** The padding loop and the [slice] that follow the shuffle, in [spinName]
    (on [randomNames]) and in [spin] (on [randomLuckyMoneys]). *)
Definition pad_and_slice {A} (maxReelItems : Z) (havePreviousWinner : bool)
    (shuffled : list A) : list A :=
  slice0 (maxReelItems - Number havePreviousWinner) (pad maxReelItems shuffled).

(** A value in a template literal: [undefined] prints as its name. *)
Definition to_string (v : option string) : string :=
  match v with
  | Some s => s
  | None => "undefined"
  end.

(** ** The engine and its world *)

(** The functions that [app.ts] defines to be called back. *)
Inductive handler :=
  | onSpinStart_app
  | onSpinNameStart_app
  | onSpinNameEnd_app
  | onSpinEnd_app
  | stopWinningAnimation.

Global Instance handler_eq_dec : EqDecision handler.
Proof. solve_decision. Defined.

(** The handle that [Element.animate] returns. *)
Inductive Animation := reel_animation.

(** [interface SlotConfigurations]; an absent optional property is [None]. *)
Record SlotConfigurations := {
  cfg_maxReelItems : option Z;
  cfg_removeWinner : option bool;
  cfg_reelContainerSelector : string;
  cfg_onSpinStart : option handler;
  cfg_onSpinEnd : option handler;
  cfg_onNameListChanged : option handler;
}.

(** The fields of [class Slot].  [reelContainer] is the element found by the
    selector, given by the [innerHTML] of its children; [currentPlayer] is
    declared a string and receives the last element of an array, which is
    [undefined] for an empty one. *)
Record Slot := {
  nameList : list string;
  currentPlayer : option string;
  luckyMoneyList : list string;
  drawHistory : list string;
  havePreviousWinner : bool;
  reelContainer : option (list string);
  maxReelItems : Z;
  shouldRemoveWinner : bool;
  reelAnimation : option Animation;
  onSpinStart : option handler;
  onSpinEnd : option handler;
  onNameListChanged : option handler;
}.

Definition with_nameList (v : list string) (s : Slot) : Slot :=
  {| nameList := v; currentPlayer := currentPlayer s;
     luckyMoneyList := luckyMoneyList s; drawHistory := drawHistory s;
     havePreviousWinner := havePreviousWinner s; reelContainer := reelContainer s;
     maxReelItems := maxReelItems s; shouldRemoveWinner := shouldRemoveWinner s;
     reelAnimation := reelAnimation s; onSpinStart := onSpinStart s;
     onSpinEnd := onSpinEnd s; onNameListChanged := onNameListChanged s |}.

Definition with_currentPlayer (v : option string) (s : Slot) : Slot :=
  {| nameList := nameList s; currentPlayer := v;
     luckyMoneyList := luckyMoneyList s; drawHistory := drawHistory s;
     havePreviousWinner := havePreviousWinner s; reelContainer := reelContainer s;
     maxReelItems := maxReelItems s; shouldRemoveWinner := shouldRemoveWinner s;
     reelAnimation := reelAnimation s; onSpinStart := onSpinStart s;
     onSpinEnd := onSpinEnd s; onNameListChanged := onNameListChanged s |}.

Definition with_luckyMoneyList (v : list string) (s : Slot) : Slot :=
  {| nameList := nameList s; currentPlayer := currentPlayer s;
     luckyMoneyList := v; drawHistory := drawHistory s;
     havePreviousWinner := havePreviousWinner s; reelContainer := reelContainer s;
     maxReelItems := maxReelItems s; shouldRemoveWinner := shouldRemoveWinner s;
     reelAnimation := reelAnimation s; onSpinStart := onSpinStart s;
     onSpinEnd := onSpinEnd s; onNameListChanged := onNameListChanged s |}.

Definition with_drawHistory (v : list string) (s : Slot) : Slot :=
  {| nameList := nameList s; currentPlayer := currentPlayer s;
     luckyMoneyList := luckyMoneyList s; drawHistory := v;
     havePreviousWinner := havePreviousWinner s; reelContainer := reelContainer s;
     maxReelItems := maxReelItems s; shouldRemoveWinner := shouldRemoveWinner s;
     reelAnimation := reelAnimation s; onSpinStart := onSpinStart s;
     onSpinEnd := onSpinEnd s; onNameListChanged := onNameListChanged s |}.

Definition with_havePreviousWinner (v : bool) (s : Slot) : Slot :=
  {| nameList := nameList s; currentPlayer := currentPlayer s;
     luckyMoneyList := luckyMoneyList s; drawHistory := drawHistory s;
     havePreviousWinner := v; reelContainer := reelContainer s;
     maxReelItems := maxReelItems s; shouldRemoveWinner := shouldRemoveWinner s;
     reelAnimation := reelAnimation s; onSpinStart := onSpinStart s;
     onSpinEnd := onSpinEnd s; onNameListChanged := onNameListChanged s |}.

Definition with_reelContainer (v : option (list string)) (s : Slot) : Slot :=
  {| nameList := nameList s; currentPlayer := currentPlayer s;
     luckyMoneyList := luckyMoneyList s; drawHistory := drawHistory s;
     havePreviousWinner := havePreviousWinner s; reelContainer := v;
     maxReelItems := maxReelItems s; shouldRemoveWinner := shouldRemoveWinner s;
     reelAnimation := reelAnimation s; onSpinStart := onSpinStart s;
     onSpinEnd := onSpinEnd s; onNameListChanged := onNameListChanged s |}.

Definition with_shouldRemoveWinner (v : bool) (s : Slot) : Slot :=
  {| nameList := nameList s; currentPlayer := currentPlayer s;
     luckyMoneyList := luckyMoneyList s; drawHistory := drawHistory s;
     havePreviousWinner := havePreviousWinner s; reelContainer := reelContainer s;
     maxReelItems := maxReelItems s; shouldRemoveWinner := v;
     reelAnimation := reelAnimation s; onSpinStart := onSpinStart s;
     onSpinEnd := onSpinEnd s; onNameListChanged := onNameListChanged s |}.

(** What the engine does that can be seen from outside it. *)
Inductive event :=
  | console_error (message : string)
  | console_log (label : string) (args : list (option string))
  | invoke (h : handler)
  | setTimeout (ms : nat)
  | animation_play
  | animation_onfinish
  | animation_finish.

Global Instance event_eq_dec : EqDecision event.
Proof. solve_decision. Defined.

(** [this], the text of the [#current-player] element ([None] when the
    document has no such element), the effects so far, and the random
    stream with the number of draws taken from it. *)
Record World := {
  this : Slot;
  current_player_text : option string;
  events : list event;
  random : nat → unit_interval;
  drawn : nat;
}.

Definition with_this (s : Slot) (w : World) : World :=
  {| this := s; current_player_text := current_player_text w;
     events := events w; random := random w; drawn := drawn w |}.

Definition with_text (text : string) (w : World) : World :=
  {| this := this w; current_player_text := Some text;
     events := events w; random := random w; drawn := drawn w |}.

Definition with_drawn (pos : nat) (w : World) : World :=
  {| this := this w; current_player_text := current_player_text w;
     events := events w; random := random w; drawn := pos |}.

(** The world after some more effects. *)
Definition add_events (trace : list event) (w : World) : World :=
  {| this := this w; current_player_text := current_player_text w;
     events := events w ++ trace; random := random w; drawn := drawn w |}.

(** A method body: it ends with a value, or throws ([None]), in a new world. *)
Definition M (A : Type) : Type := World → option A * World.

Global Instance M_ret : MRet M := λ A a w, (Some a, w).
Global Instance M_bind : MBind M := λ A B f m w,
  match m w with
  | (Some a, w') => f a w'
  | (None, w') => (None, w')
  end.

Definition get_this : M Slot := λ w, (Some (this w), w).

Definition modify_this (f : Slot → Slot) : M unit :=
  λ w, (Some (), with_this (f (this w)) w).

Definition emit (e : event) : M unit := λ w, (Some (), add_events [e] w).

(** [Math.random()] *)
Definition Math_random : M unit_interval := λ w,
  (Some (random w (drawn w)), with_drawn (S (drawn w)) w).

(** [currentPlayerElement.textContent = text]: a [TypeError] when
    [getElementById] found nothing. *)
Definition set_textContent (text : string) : M unit := λ w,
  match current_player_text w with
  | Some _ => (Some (), with_text text w)
  | None => (None, w)
  end.

(** [if (callback) callback()] *)
Definition notify (callback : option handler) : M unit :=
  match callback with
  | Some h => emit (invoke h)
  | None => mret ()
  end.

(** [Slot.shuffleNames(this.nameList)]: the array passed is the engine's own
    list, so what the shuffle leaves in it is what [this.nameList] holds
    afterwards. *)
Definition call_shuffleNames : M (list (option string)) := λ w,
  let '(array, result, pos) := shuffleNames (random w) (nameList (this w)) (drawn w) in
  (Some result, with_drawn pos (with_this (with_nameList array (this w)) w)).

(** [Slot.shuffleLuckyMoneys(this.luckyMoneyList)] *)
Definition call_shuffleLuckyMoneys : M (list (option string)) := λ w,
  let '(array, result, pos) :=
    shuffleLuckyMoneys (random w) (luckyMoneyList (this w)) (drawn w) in
  (Some result, with_drawn pos (with_this (with_luckyMoneyList array (this w)) w)).

(** ** The methods of [Slot] *)

(** [constructor]: the destructuring reads six properties of its argument and
    gives two of them defaults.  [querySelector] is the document's. *)
Definition new_Slot (querySelector : string → option (list string))
    (config : SlotConfigurations) : Slot :=
  let reelContainer := querySelector (cfg_reelContainerSelector config) in
  {| nameList := [];
     currentPlayer := Some "";
     luckyMoneyList := [];
     drawHistory := [];
     havePreviousWinner := false;
     reelContainer := reelContainer;
     maxReelItems := default 30%Z (cfg_maxReelItems config);
     shouldRemoveWinner := default true (cfg_removeWinner config);
     reelAnimation := (λ _, reel_animation) <$> reelContainer;
     onSpinStart := cfg_onSpinStart config;
     onSpinEnd := cfg_onSpinEnd config;
     onNameListChanged := cfg_onNameListChanged config |}.

(** [set names(names)] *)
Definition set_names (names : list string) : M unit :=
  modify_this (with_nameList names);;
  modify_this (λ s, with_reelContainer ((λ _, []) <$> reelContainer s) s);;
  modify_this (with_havePreviousWinner false);;
  s ← get_this;
  notify (onNameListChanged s).

(** [set luckyMoneys(luckyMoneys)] *)
Definition set_luckyMoneys (luckyMoneys : list string) : M unit :=
  modify_this (with_luckyMoneyList luckyMoneys).

(** [set drawHistories(histories)] *)
Definition set_drawHistories (histories : list string) : M unit :=
  modify_this (with_drawHistory histories).

(** [set shouldRemoveWinnerFromNameList(removeWinner)] *)
Definition set_shouldRemoveWinnerFromNameList (removeWinner : bool) : M unit :=
  modify_this (with_shouldRemoveWinner removeWinner).

(** The [for] loop of [spinName] that cycles through names: [count] turns are
    left, [i] is the loop variable.  The list is read anew at each turn. *)
Fixpoint selecting_loop (count : nat) (i : nat) : M unit :=
  match count with
  | 0 => mret ()
  | S count' =>
      s ← get_this;
      x ← Math_random;
      let shown := nameList s !! scale_floor x (length (nameList s)) in
      set_textContent ("Selecting... " +:+ to_string shown);;
      emit (setTimeout (20 * (i + 1)));;
      selecting_loop count' (i + 1)
  end.

(** [spinName()] *)
Definition spinName : M bool :=
  s ← get_this;
  if length (nameList s) =? 0 then
    emit (console_error "Name List is empty. Cannot start spinning.");;
    mret false
  else
    randomNames ← call_shuffleNames;
    s ← get_this;
    let randomNames :=
      pad_and_slice (maxReelItems s) (havePreviousWinner s) randomNames in
    let playerName := js_last randomNames in
    modify_this (with_currentPlayer playerName);;
    s ← get_this;
    selecting_loop (length (nameList s) * 6) 0;;
    set_textContent ("⭐️ " +:+ to_string playerName +:+ " ⭐️");;
    mret true.

(** Where [spin] stands when it hands control back: it has returned, or it
    waits for the animation to finish. *)
Inductive spin_point :=
  | returned (b : bool)
  | awaits_animation.

(** The removal block of [spin], under [if (shouldRemoveWinner)]: four
    updates of [this] in a row. *)
Definition removal (playerLuckyMoney : option string) (s : Slot) : Slot :=
  let s :=
    with_nameList
      (splice1
         (findIndex (λ name, bool_decide (Some name = currentPlayer s)) (nameList s))
         (nameList s)) s in
  let s :=
    with_luckyMoneyList
      (splice1
         (findIndex (λ luckyMoney, bool_decide (Some luckyMoney = playerLuckyMoney))
            (luckyMoneyList s))
         (luckyMoneyList s)) s in
  let s :=
    with_drawHistory
      (drawHistory s ++
       [to_string (currentPlayer s) +:+ " - " +:+ to_string playerLuckyMoney]) s in
  if (length (nameList s) =? 0) && (length (luckyMoneyList s) =? 0)
  then with_drawHistory (drawHistory s ++ ["-------END-------"]) s
  else s.

Definition remove_winner (playerLuckyMoney : option string) : M unit :=
  modify_this (removal playerLuckyMoney).

(** [spin()] from the destructuring of [this] to [reelAnimation.play()]. *)
Definition spin_reel : M spin_point :=
  s ← get_this;
  match reelContainer s, reelAnimation s with
  | Some _, Some _ =>
      let shouldRemoveWinner := shouldRemoveWinner s in
      randomLuckyMoneys ← call_shuffleLuckyMoneys;
      s ← get_this;
      let randomLuckyMoneys :=
        pad_and_slice (maxReelItems s) (havePreviousWinner s) randomLuckyMoneys in
      let playerLuckyMoney := js_last randomLuckyMoneys in
      modify_this (λ s,
        with_reelContainer
          ((λ children, children ++ (to_string <$> randomLuckyMoneys))
             <$> reelContainer s) s);;
      emit (console_log "Displayed items: " randomLuckyMoneys);;
      s ← get_this;
      emit (console_log "Result: " [currentPlayer s; playerLuckyMoney]);;
      (if shouldRemoveWinner then remove_winner playerLuckyMoney else mret ());;
      s ← get_this;
      emit (console_log "Remaining players: " (Some <$> nameList s));;
      emit (console_log "Remaining lucky money: " (Some <$> luckyMoneyList s));;
      emit animation_play;;
      mret awaits_animation
  | _, _ => mret (returned false)
  end.

(** [spin()] from its first statement to [await animationPromise]. *)
Definition spin_before_await : M spin_point :=
  s ← get_this;
  if (length (nameList s) =? 0) && (length (luckyMoneyList s) =? 0) then
    emit (console_error
            "Name List and Lucky Money List is empty. Cannot start spinning.");;
    mret (returned false)
  else
    notify (onSpinStart s);;
    _ ← spinName;
    spin_reel.

(** [Array.from(children).slice(0, children.length - 1)
      .forEach((element) => element.remove())]: what stays in the reel. *)
Definition trim_reel (children : list string) : list string :=
  drop (length (slice0 (Z.of_nat (length children) - 1) children)) children.

(** [spin()] once [animationPromise] has resolved. *)
Definition spin_after_await : M bool :=
  emit animation_finish;;
  modify_this (λ s, with_reelContainer (trim_reel <$> reelContainer s) s);;
  modify_this (with_havePreviousWinner true);;
  s ← get_this;
  notify (onSpinEnd s);;
  mret true.

(** [spin()]: the animation's [onfinish] fires between the two halves. *)
Definition spin : M bool :=
  p ← spin_before_await;
  match p with
  | returned b => mret b
  | awaits_animation => emit animation_onfinish;; spin_after_await
  end.

(** ** The caller, [app.ts] *)

Definition MAX_REEL_ITEMS : Z := 40.

(** The object literal that [app.ts] passes to [new Slot(...)], property by
    property. *)
Record app_options := {
  opt_reelContainerSelector : string;
  opt_maxReelItems : Z;
  opt_onSpinStart : handler;
  opt_onSpinEnd : handler;
  opt_onSpinNameStart : handler;
  opt_onSpinNameEnd : handler;
  opt_onNameListChanged : handler;
}.

Definition app_slot_options : app_options :=
  {| opt_reelContainerSelector := "#reel";
     opt_maxReelItems := MAX_REEL_ITEMS;
     opt_onSpinStart := onSpinStart_app;
     opt_onSpinEnd := onSpinEnd_app;
     opt_onSpinNameStart := onSpinNameStart_app;
     opt_onSpinNameEnd := onSpinNameEnd_app;
     opt_onNameListChanged := stopWinningAnimation |}.

(** What the constructor receives of it: [SlotConfigurations] has no
    [onSpinNameStart] and no [onSpinNameEnd], and the destructuring in the
    constructor's parameter does not name them. *)
Definition as_SlotConfigurations (o : app_options) : SlotConfigurations :=
  {| cfg_maxReelItems := Some (opt_maxReelItems o);
     cfg_removeWinner := None;
     cfg_reelContainerSelector := opt_reelContainerSelector o;
     cfg_onSpinStart := Some (opt_onSpinStart o);
     cfg_onSpinEnd := Some (opt_onSpinEnd o);
     cfg_onNameListChanged := Some (opt_onNameListChanged o) |}.

Definition app_config : SlotConfigurations := as_SlotConfigurations app_slot_options.

(** A document with the elements [app.ts] looks for: an empty [#reel]. *)
Definition app_document (selector : string) : option (list string) :=
  if bool_decide (selector = "#reel") then Some [] else None.

(** The page once a script has built its engine from [config], with a given
    random stream. *)
Definition page (config : SlotConfigurations) (rnd : nat → unit_interval) : World :=
  {| this := new_Slot app_document config;
     current_player_text := Some "";
     events := [];
     random := rnd;
     drawn := 0 |}.

Definition app_world (rnd : nat → unit_interval) : World := page app_config rnd.

(** The world a method body leaves. *)
Definition after {A} (m : M A) (w : World) : World := (m w).2.

(** The callbacks invoked, in order. *)
Definition invoked (trace : list event) : list handler :=
  omap (λ e, match e with invoke h => Some h | _ => None end) trace.

(** ** The sequences of a draw *)

(** [randomNames] as [spinName] builds it when started in [w]. *)
Definition randomNames (w : World) : list (option string) :=
  pad_and_slice (maxReelItems (this w)) (havePreviousWinner (this w))
    (shuffleNames (random w) (nameList (this w)) (drawn w)).1.2.

(** [randomLuckyMoneys] as [spin] builds it when [spinName] has ended in [w]. *)
Definition randomLuckyMoneys (w : World) : list (option string) :=
  pad_and_slice (maxReelItems (this w)) (havePreviousWinner (this w))
    (shuffleLuckyMoneys (random w) (luckyMoneyList (this w)) (drawn w)).1.2.

(** The world in which [spin], started in [w], reaches the prize draw. *)
Definition after_name_reveal (w : World) : World :=
  ((notify (onSpinStart (this w));; spinName) w).2.

(** The winner name once the name reveal is over: the last element of
    [randomNames], or, with no names, what [currentPlayer] already held. *)
Definition declared_name (w : World) : option string :=
  if length (nameList (this w)) =? 0 then currentPlayer (this w)
  else js_last (randomNames w).

(** [playerLuckyMoney] of the prize draw that starts in [w]. *)
Definition playerLuckyMoney (w : World) : option string :=
  js_last (randomLuckyMoneys w).

(** The engine when [spin], having reached the prize draw in [w], gets to
    [await animationPromise]. *)
Definition at_await (w : World) : Slot :=
  let populated :=
    with_reelContainer
      ((λ children, children ++ (to_string <$> randomLuckyMoneys w))
         <$> reelContainer (this w)) (this w) in
  if shouldRemoveWinner (this w) then removal (playerLuckyMoney w) populated
  else populated.

(** What the prize draw that starts in [w] adds to the trace. *)
Definition reel_events (w : World) : list event :=
  [console_log "Displayed items: " (randomLuckyMoneys w);
   console_log "Result: " [currentPlayer (this w); playerLuckyMoney w];
   console_log "Remaining players: " (Some <$> nameList (at_await w));
   console_log "Remaining lucky money: " (Some <$> luckyMoneyList (at_await w));
   animation_play].

(** The engine after the statements that follow the [await]. *)
Definition finished (s : Slot) : Slot :=
  with_havePreviousWinner true (with_reelContainer (trim_reel <$> reelContainer s) s).

(** What the name reveal adds to the trace: the timers of its cycling, or
    the error it reports on an empty list. *)
Definition name_reveal_events (w : World) : list event :=
  if length (nameList (this w)) =? 0
  then [console_error "Name List is empty. Cannot start spinning."]
  else (λ i, setTimeout (20 * (i + 1))) <$> seq 0 (length (nameList (this w)) * 6).

(** A run from [w] to [w']: the engine has become [s'], the effects [trace]
    have been added, [draws] random numbers have been taken, and the
    [#current-player] element is still there if it was. *)
Definition run_to (w w' : World) (s' : Slot) (trace : list event) (draws : nat) : Prop :=
  this w' = s' ∧ events w' = events w ++ trace ∧ random w' = random w
  ∧ drawn w' = drawn w + draws
  ∧ (is_Some (current_player_text w) → is_Some (current_player_text w')).

(** The effects between two worlds of one run. *)
Definition new_events (w w' : World) : list event :=
  drop (length (events w)) (events w').

(** What a draw needs to go through: something to draw from, the reel and
    its animation, and the [#current-player] element when there are names. *)
Definition can_spin (w : World) : Prop :=
  ¬ (nameList (this w) = [] ∧ luckyMoneyList (this w) = [])
  ∧ is_Some (reelContainer (this w)) ∧ is_Some (reelAnimation (this w))
  ∧ (nameList (this w) ≠ [] → is_Some (current_player_text w)).

(** How many times a value occurs in a list of names or prizes. *)
Definition occurrences (v : option string) (l : list string) : nat :=
  length (filter (λ x, Some x = v) l).

(** ** Example worlds *)

(** A random stream: always [0]. *)
Definition zero : unit_interval := {| numer := 0; gap := 0 |}.

(** The page of [app.ts] once the settings ["A"] and ["X"] are saved. *)
Definition app_world_A_X : World :=
  after (set_names ["A"];; set_luckyMoneys ["X"]) (app_world (λ _, zero)).

(** An engine configured like that of [app.ts] but for [maxReelItems: 1]. *)
Definition one_item_config : SlotConfigurations :=
  {| cfg_maxReelItems := Some 1%Z;
     cfg_removeWinner := None;
     cfg_reelContainerSelector := "#reel";
     cfg_onSpinStart := Some onSpinStart_app;
     cfg_onSpinEnd := Some onSpinEnd_app;
     cfg_onNameListChanged := Some stopWinningAnimation |}.

(** That engine after a first draw among three names and three prizes: two
    of each are left, and the previous winner fills the reel. *)
Definition one_item_world : World :=
  after (set_names ["A"; "B"; "C"];; set_luckyMoneys ["X"; "Y"; "Z"];; spin)
    (page one_item_config (λ _, zero)).

(** The same after a first draw among three names and no prize. *)
Definition one_item_world_no_prize : World :=
  after (set_names ["A"; "B"; "C"];; spin) (page one_item_config (λ _, zero)).

(** That engine when a first draw among two names and two prizes has left
    ["A"] and ["X"] and the history has been cleared: the previous winner
    fills the reel. *)
Definition one_item_world_A_X : World :=
  after (set_names ["B"; "A"];; set_luckyMoneys ["Y"; "X"];; spin;;
         set_drawHistories [])
    (page one_item_config (λ _, zero)).

(** The page of [app.ts] in the same situation: the previous winner is on the
    reel, which has room for thirty-nine more items. *)
Definition app_world_second_draw : World :=
  after (set_names ["A"; "B"];; set_luckyMoneys ["X"; "Y"];; spin;;
         set_drawHistories [])
    (app_world (λ _, zero)).

(** ** More of [Slot] and of [app.ts] *)

(** [beforeSpin()] *)
Definition beforeSpin : M bool :=
  s ← get_this;
  if length (nameList s) =? 0 then
    emit (console_error "Name List is empty. Cannot start spinning.");;
    mret false
  else
    notify (onSpinStart s);;
    randomNames ← call_shuffleNames;
    s ← get_this;
    let randomNames :=
      pad_and_slice (maxReelItems s) (havePreviousWinner s) randomNames in
    let playerName := js_last randomNames in
    modify_this (with_currentPlayer playerName);;
    mret true.

(** A caller that calls [spin()] [n] times, each call once the one before
    has settled, and keeps what they resolved to. *)
Fixpoint draws (n : nat) : M (list bool) :=
  match n with
  | 0 => mret []
  | S n' => b ← spin; bs ← draws n'; mret (b :: bs)
  end.

(** The time asked of the timers of a trace, in milliseconds. *)
Definition waited (trace : list event) : nat :=
  sum_list (omap (λ e, match e with setTimeout ms => Some ms | _ => None end) trace).

(** A draw of the unit interval that [Math.random() * n | 0] takes to [i],
    for [i < n]: the number [i / n]. *)
Definition pick (i n : nat) : unit_interval :=
  {| numer := N.of_nat i; gap := N.of_nat (n - i - 1) |}.

(** A world whose document has lost its [#current-player] element. *)
Definition without_player_element (w : World) : World :=
  {| this := this w; current_player_text := None;
     events := events w; random := random w; drawn := drawn w |}.

(** A world whose engine found no reel when it was built. *)
Definition without_reel (w : World) : World :=
  with_this (with_reelContainer None (this w)) w.

(** The world [w] with another random stream, read from the same cursor. *)
Definition with_random (rnd : nat → unit_interval) (w : World) : World :=
  {| this := this w; current_player_text := current_player_text w;
     events := events w; random := rnd; drawn := drawn w |}.

(** * Properties *)

(** ** The random source *)

Lemma scale_floor_lt (x : unit_interval) (n : nat) :
  0 < n → scale_floor x n < n.
Proof.
  intros Hn. unfold scale_floor.
  assert (H : (numer x * N.of_nat n / (numer x + gap x + 1) < N.of_nat n)%N).
  { apply N.Div0.div_lt_upper_bound. nia. }
  lia.
Qed.

(** ** JavaScript arrays *)

Section js_array_facts.
Context {A : Type}.
Implicit Types (a : list (option A)) (l : list A) (v : option A).

Lemma js_get_Some a i v : a !! i = Some v → js_get a i = v.
Proof. unfold js_get. by intros ->. Qed.

Lemma js_set_in_range a i v : i < length a → js_set i v a = <[i:=v]> a.
Proof.
  intros Hi. unfold js_set.
  destruct (Nat.ltb_spec i (length a)); [done | lia].
Qed.

Lemma js_last_app a v : js_last (a ++ [v]) = v.
Proof.
  unfold js_last. rewrite length_app, Nat.add_1_r. simpl.
  apply js_get_Some. by rewrite lookup_app_r, Nat.sub_diag.
Qed.

Lemma js_last_is_last a : a ≠ [] → Some (js_last a) = last a.
Proof.
  intros Ha. destruct (exists_last Ha) as (a' & v & ->).
  rewrite js_last_app. by rewrite last_snoc.
Qed.
End js_array_facts.

(** ** The shuffle *)

Section shuffle_facts.
Context {T : Type}.
Implicit Types (array : list T) (keys : list (option nat)) (ks : list nat).

(** Reading [array] at each of its own indices gives [array] back. *)
Lemma lookup_all_indices array :
  (array !!.) <$> seq 0 (length array) = Some <$> array.
Proof.
  apply list_eq. intros i. rewrite !list_lookup_fmap.
  destruct (decide (i < length array)) as [Hi | Hi].
  - rewrite lookup_seq_lt by done. simpl.
    destruct (lookup_lt_is_Some_2 array i Hi) as [x Hx]. by rewrite Hx.
  - rewrite lookup_seq_ge by lia. rewrite lookup_ge_None_2 by lia. done.
Qed.

(** One turn of the selection: the index picked leaves [ks], the last index
    takes its place. *)
Lemma swap_out_Permutation ks n' i j t :
  length ks = S n' → i ≤ n' → ks !! i = Some j → ks !! n' = Some t →
  ks ≡ₚ j :: <[i:=t]> (take n' ks).
Proof.
  intros Hlen Hi Hj Ht.
  assert (Hks : ks = take n' ks ++ [t]).
  { rewrite <- (take_drop_middle ks n' t Ht) at 1.
    rewrite (drop_ge ks (S n')) by lia. done. }
  destruct (decide (i = n')) as [-> | Hne].
  - rewrite list_insert_ge by (rewrite length_take; lia).
    assert (j = t) by congruence. subst j.
    rewrite Hks at 1. by rewrite Permutation_app_comm.
  - assert (Hi' : i < n') by lia.
    assert (Hj' : take n' ks !! i = Some j) by (by rewrite lookup_take_lt).
    rewrite insert_take_drop by (rewrite length_take; lia).
    rewrite Hks at 1.
    rewrite <- (take_drop_middle (take n' ks) i j Hj') at 1.
    rewrite Permutation_app_comm. simpl.
    rewrite <- !Permutation_middle. apply perm_swap.
Qed.

(** The loop invariant: the first [n] keys are the indices [ks] not yet
    picked, and [result] with the elements at [ks] makes up [array]. *)
Lemma shuffle_loop_spec rnd array n : ∀ k keys result pos ks,
  take n keys = Some <$> ks →
  n ≤ length keys →
  k + n = length array →
  result ++ ((array !!.) <$> ks) ≡ₚ Some <$> array →
  ∃ result',
    shuffle_loop rnd n k array keys result pos = (array, result', pos + n)
    ∧ result' ≡ₚ Some <$> array.
Proof.
  induction n as [| n' IH]; intros k keys result pos ks Hks Hn Hk Hperm.
  - exists result. simpl. split; [by rewrite Nat.add_0_r |].
    rewrite take_0 in Hks. symmetry in Hks. apply fmap_nil_inv in Hks. subst ks.
    by rewrite app_nil_r in Hperm.
  - assert (Hlen : length ks = S n').
    { apply (f_equal length) in Hks.
      rewrite length_take, length_fmap in Hks. lia. }
    cbn [shuffle_loop].
    destruct (Nat.ltb_spec k (length array)) as [_ | ?]; [| lia].
    set (i := scale_floor (rnd pos) (S n')).
    assert (Hi : i < S n') by (apply scale_floor_lt; lia).
    destruct (lookup_lt_is_Some_2 ks i) as [j Hj]; [lia |].
    destruct (lookup_lt_is_Some_2 ks n') as [t Ht]; [lia |].
    assert (Hkeys : ∀ m x, ks !! m = Some x → keys !! m = Some (Some x)).
    { intros m x Hm. pose proof (lookup_lt_Some _ _ _ Hm).
      rewrite <- (lookup_take_lt keys (S n')) by lia.
      by rewrite Hks, list_lookup_fmap, Hm. }
    rewrite (js_get_Some keys i (Some j)) by auto.
    rewrite (js_get_Some keys n' (Some t)) by auto.
    rewrite (js_set_in_range keys) by lia.
    rewrite js_set_in_range by (rewrite length_insert; lia).
    destruct (IH (k + 1) (<[i:=Some t]> (<[n':=Some j]> keys))
                (result ++ [Some j ≫= (array !!.)]) (S pos)
                (<[i:=t]> (take n' ks))) as (result' & Hrun & Hres).
    + rewrite list_fmap_insert, fmap_take, <- Hks, take_take, Nat.min_l by lia.
      rewrite take_insert. destruct (decide (i < n')) as [Hlt | Hge].
      * by rewrite take_insert_ge.
      * rewrite take_insert_ge by done.
        rewrite list_insert_ge; [done | rewrite length_take; lia].
    + rewrite !length_insert. lia.
    + lia.
    + rewrite <- Hperm. rewrite <- app_assoc. apply Permutation_app_head.
      pose proof (swap_out_Permutation ks n' i j t Hlen ltac:(lia) Hj Ht) as Hsw.
      apply (fmap_Permutation (array !!.)) in Hsw. by rewrite Hsw.
    + exists result'. split; [| done].
      rewrite Hrun. f_equal. lia.
Qed.

Lemma shuffleNames_spec rnd array pos :
  ∃ result,
    shuffleNames rnd array pos = (array, result, pos + length array)
    ∧ result ≡ₚ Some <$> array.
Proof.
  unfold shuffleNames, Object_keys. rewrite length_fmap, length_seq.
  destruct (shuffle_loop_spec rnd array (length array) 0
              (Some <$> seq 0 (length array)) [] pos (seq 0 (length array)))
    as (result & Hrun & Hres).
  - rewrite take_ge; [done | rewrite length_fmap, length_seq; lia].
  - rewrite length_fmap, length_seq. lia.
  - done.
  - by rewrite lookup_all_indices.
  - eauto.
Qed.

Lemma shuffleLuckyMoneys_spec rnd array pos :
  ∃ result,
    shuffleLuckyMoneys rnd array pos = (array, result, pos + length array)
    ∧ result ≡ₚ Some <$> array.
Proof. apply shuffleNames_spec. Qed.
End shuffle_facts.

(** ** Padding and truncation *)

Section reel_sequence_facts.
Context {A : Type}.
Implicit Types (xs : list A) (m : Z).

Lemma pad_loop_nil fuel m : pad_loop fuel m (@nil A) = [].
Proof. by destruct fuel. Qed.

Lemma pad_loop_elem_of fuel m : ∀ xs x, x ∈ pad_loop fuel m xs → x ∈ xs.
Proof.
  induction fuel as [| fuel IH]; intros xs x Hx; simpl in Hx; [done |].
  destruct (negb (length xs =? 0) && (Z.of_nat (length xs) <? m)%Z); [| done].
  apply IH in Hx. apply elem_of_app in Hx. tauto.
Qed.

(** The loop condition, as a proposition. *)
Lemma pad_condition_true xs m :
  negb (length xs =? 0) && (Z.of_nat (length xs) <? m)%Z = true
  ↔ 0 < length xs ∧ (Z.of_nat (length xs) < m)%Z.
Proof.
  rewrite andb_true_iff, negb_true_iff, Nat.eqb_neq, Z.ltb_lt. lia.
Qed.

(** With enough turns the loop leaves on its own condition. *)
Lemma pad_loop_length fuel m : ∀ xs,
  xs ≠ [] → (m ≤ Z.of_nat fuel + Z.of_nat (length xs))%Z →
  (m ≤ Z.of_nat (length (pad_loop fuel m xs)))%Z.
Proof.
  induction fuel as [| fuel IH]; intros xs Hne Hfuel; simpl; [lia |].
  destruct (negb _ && _) eqn:Hc.
  - apply pad_condition_true in Hc as [Hpos Hlt]. apply IH.
    + intros [? _]%app_eq_nil. done.
    + rewrite length_app. lia.
  - apply not_true_iff_false in Hc. rewrite pad_condition_true in Hc.
    destruct xs; [done | simpl in *; lia].
Qed.

(** More turns than [maxReelItems] change nothing. *)
Lemma pad_loop_more fuel m : ∀ fuel' xs,
  xs = [] ∨ (m ≤ Z.of_nat fuel + Z.of_nat (length xs))%Z →
  fuel ≤ fuel' →
  pad_loop fuel' m xs = pad_loop fuel m xs.
Proof.
  induction fuel as [| fuel IH]; intros fuel' xs Hfuel Hle.
  - simpl. destruct fuel' as [| fuel']; [done |]. simpl.
    destruct (negb _ && _) eqn:Hc; [| done].
    apply pad_condition_true in Hc as [Hpos Hlt].
    destruct Hfuel as [-> | ?]; [simpl in Hpos; lia | lia].
  - destruct fuel' as [| fuel']; [lia |]. simpl.
    destruct (negb _ && _) eqn:Hc; [| done].
    apply pad_condition_true in Hc as [Hpos Hlt].
    apply IH; [| lia]. right. rewrite length_app.
    destruct Hfuel as [-> | ?]; [simpl in Hpos; lia | lia].
Qed.

Lemma pad_loop_fuel fuel m xs :
  Z.to_nat m ≤ fuel → pad_loop fuel m xs = pad m xs.
Proof. intros Hle. unfold pad. apply pad_loop_more; [right; lia | done]. Qed.

Lemma pad_nil m : pad m (@nil A) = [].
Proof. apply pad_loop_nil. Qed.

Lemma pad_length m xs : xs ≠ [] → (m ≤ Z.of_nat (length (pad m xs)))%Z.
Proof. intros Hne. apply pad_loop_length; [done | lia]. Qed.

Lemma pad_elem_of m xs x : x ∈ pad m xs → x ∈ xs.
Proof. apply pad_loop_elem_of. Qed.

Lemma slice0_length (e : Z) xs :
  (0 ≤ e ≤ Z.of_nat (length xs))%Z → Z.of_nat (length (slice0 e xs)) = e.
Proof.
  intros He. unfold slice0.
  destruct (Z.ltb_spec e 0); [lia |].
  rewrite length_take. lia.
Qed.

Lemma slice0_elem_of (e : Z) xs x : x ∈ slice0 e xs → x ∈ xs.
Proof. unfold slice0. apply subseteq_take. Qed.

Lemma pad_and_slice_nil m (b : bool) : pad_and_slice m b (@nil A) = [].
Proof. unfold pad_and_slice, slice0. by rewrite pad_nil, take_nil. Qed.

Lemma pad_and_slice_length m (b : bool) xs :
  xs ≠ [] → (1 ≤ m)%Z →
  Z.of_nat (length (pad_and_slice m b xs)) = (m - Number b)%Z.
Proof.
  intros Hne Hm. unfold pad_and_slice. apply slice0_length.
  pose proof (pad_length m xs Hne). destruct b; simpl; lia.
Qed.

Lemma pad_and_slice_elem_of m (b : bool) xs x :
  x ∈ pad_and_slice m b xs → x ∈ xs.
Proof. intros Hx. by apply slice0_elem_of, pad_elem_of in Hx. Qed.
End reel_sequence_facts.

(** What a permutation of the pool tells about a shuffled array. *)
Lemma shuffled_nil {T} (pool : list T) (shuffled : list (option T)) :
  shuffled ≡ₚ Some <$> pool → shuffled = [] ↔ pool = [].
Proof.
  intros Hperm. split; intros ->.
  - apply Permutation_nil in Hperm. by apply fmap_nil_inv in Hperm.
  - symmetry in Hperm. by apply Permutation_nil in Hperm.
Qed.

Lemma shuffled_elem_of {T} (pool : list T) (shuffled : list (option T)) v :
  shuffled ≡ₚ Some <$> pool → v ∈ shuffled → ∃ x, v = Some x ∧ x ∈ pool.
Proof.
  intros Hperm Hv. rewrite Hperm in Hv.
  apply list_elem_of_fmap in Hv as (x & -> & Hx). eauto.
Qed.

(** ** Running method bodies *)

Lemma bind_run {A B} (m : M A) (f : A → M B) w :
  (m ≫= f) w =
  match m w with
  | (Some a, w') => f a w'
  | (None, w') => (None, w')
  end.
Proof. reflexivity. Qed.

Lemma get_this_bind {B} (f : Slot → M B) w : (get_this ≫= f) w = f (this w) w.
Proof. reflexivity. Qed.

Lemma modify_this_bind {B} (g : Slot → Slot) (f : unit → M B) w :
  (modify_this g ≫= f) w = f () (with_this (g (this w)) w).
Proof. reflexivity. Qed.

Lemma emit_bind {B} (e : event) (f : unit → M B) w :
  (emit e ≫= f) w = f () (add_events [e] w).
Proof. reflexivity. Qed.

Lemma Math_random_bind {B} (f : unit_interval → M B) w :
  (Math_random ≫= f) w = f (random w (drawn w)) (with_drawn (S (drawn w)) w).
Proof. reflexivity. Qed.

Lemma set_textContent_bind {B} text (f : unit → M B) w :
  is_Some (current_player_text w) →
  (set_textContent text ≫= f) w = f () (with_text text w).
Proof.
  intros [old Hold]. rewrite bind_run. unfold set_textContent. by rewrite Hold.
Qed.

Lemma bind_Some {A B} (m : M A) (f : A → M B) w a w' :
  m w = (Some a, w') → (m ≫= f) w = f a w'.
Proof. intros H. by rewrite bind_run, H. Qed.

Lemma with_nameList_same s : with_nameList (nameList s) s = s.
Proof. by destruct s. Qed.

Lemma with_luckyMoneyList_same s : with_luckyMoneyList (luckyMoneyList s) s = s.
Proof. by destruct s. Qed.

Lemma run_to_refl w : run_to w w (this w) [] 0.
Proof.
  unfold run_to. rewrite app_nil_r, Nat.add_0_r. done.
Qed.

Lemma run_to_trans w w1 w2 s1 s2 t1 t2 n1 n2 :
  run_to w w1 s1 t1 n1 → run_to w1 w2 s2 t2 n2 →
  run_to w w2 s2 (t1 ++ t2) (n1 + n2).
Proof.
  intros (_ & He1 & Hr1 & Hd1 & Ht1) (Hs2 & He2 & Hr2 & Hd2 & Ht2).
  unfold run_to. rewrite He2, He1, Hr2, Hr1, Hd2, Hd1, app_assoc.
  repeat split; [done | lia | auto].
Qed.

Lemma notify_run callback w :
  ∃ w', notify callback w = (Some (), w')
        ∧ run_to w w' (this w) (invoke <$> option_list callback) 0
        ∧ current_player_text w' = current_player_text w.
Proof.
  destruct callback as [h |]; simpl.
  - eexists. split; [reflexivity |]. unfold run_to. simpl.
    by rewrite Nat.add_0_r.
  - exists w. split; [done |]. split; [apply run_to_refl | done].
Qed.

Lemma selecting_loop_run count : ∀ i w,
  is_Some (current_player_text w) →
  ∃ w', selecting_loop count i w = (Some (), w')
        ∧ run_to w w' (this w) ((λ j, setTimeout (20 * (j + 1))) <$> seq i count) count
        ∧ is_Some (current_player_text w').
Proof.
  induction count as [| count IH]; intros i w Htext.
  - exists w. split; [done |]. split; [apply run_to_refl | done].
  - cbn [selecting_loop].
    rewrite get_this_bind, Math_random_bind, set_textContent_bind, emit_bind by done.
    match goal with |- context [selecting_loop count (i + 1) ?w1] =>
      destruct (IH (i + 1) w1) as (w' & Hrun & Hto & Hel); [by eexists |]
    end.
    exists w'. split; [exact Hrun |]. split; [| done].
    destruct Hto as (Hs & He & Hr & Hd & _). unfold run_to.
    rewrite Hs, He, Hr, Hd. cbn.
    rewrite <- app_assoc, Nat.add_1_r. repeat split; [lia | done].
Qed.

(** With names and no [#current-player] element, the cycling throws at its
    first assignment. *)
Lemma selecting_loop_throws count i w :
  0 < count → current_player_text w = None →
  (selecting_loop count i w).1 = None.
Proof.
  intros Hc Htext. destruct count as [| count]; [lia |].
  cbn [selecting_loop]. rewrite get_this_bind, Math_random_bind, bind_run.
  unfold set_textContent. cbn. by rewrite Htext.
Qed.

Lemma with_drawn_with_this_same pos w :
  with_drawn pos (with_this (this w) w) = with_drawn pos w.
Proof. by destruct w. Qed.

Lemma call_shuffleNames_run w :
  ∃ shuffled,
    call_shuffleNames w
    = (Some shuffled, with_drawn (drawn w + length (nameList (this w))) w)
    ∧ shuffled = (shuffleNames (random w) (nameList (this w)) (drawn w)).1.2
    ∧ shuffled ≡ₚ Some <$> nameList (this w).
Proof.
  destruct (shuffleNames_spec (random w) (nameList (this w)) (drawn w))
    as (shuffled & Hrun & Hperm).
  exists shuffled. unfold call_shuffleNames. rewrite Hrun. cbn.
  by rewrite with_nameList_same, with_drawn_with_this_same.
Qed.

Lemma call_shuffleLuckyMoneys_run w :
  ∃ shuffled,
    call_shuffleLuckyMoneys w
    = (Some shuffled, with_drawn (drawn w + length (luckyMoneyList (this w))) w)
    ∧ shuffled = (shuffleLuckyMoneys (random w) (luckyMoneyList (this w)) (drawn w)).1.2
    ∧ shuffled ≡ₚ Some <$> luckyMoneyList (this w).
Proof.
  destruct (shuffleLuckyMoneys_spec (random w) (luckyMoneyList (this w)) (drawn w))
    as (shuffled & Hrun & Hperm).
  exists shuffled. unfold call_shuffleLuckyMoneys. rewrite Hrun. cbn.
  by rewrite with_luckyMoneyList_same, with_drawn_with_this_same.
Qed.

Lemma length_eqb_zero {A} (l : list A) : (length l =? 0) = true ↔ l = [].
Proof. rewrite Nat.eqb_eq. apply length_zero_iff_nil. Qed.

Lemma length_zero_false {A} (l : list A) : l ≠ [] → (length l =? 0) = false.
Proof. intros H. apply not_true_iff_false. by rewrite length_eqb_zero. Qed.

Lemma spinName_empty w :
  nameList (this w) = [] →
  spinName w
  = (Some false,
     add_events [console_error "Name List is empty. Cannot start spinning."] w).
Proof.
  intros Hnil. unfold spinName. rewrite get_this_bind, Hnil. reflexivity.
Qed.

Lemma spinName_run w :
  nameList (this w) ≠ [] → is_Some (current_player_text w) →
  ∃ w', spinName w = (Some true, w')
        ∧ run_to w w' (with_currentPlayer (js_last (randomNames w)) (this w))
            (name_reveal_events w) (7 * length (nameList (this w)))
        ∧ current_player_text w'
          = Some ("⭐️ " +:+ to_string (js_last (randomNames w)) +:+ " ⭐️").
Proof.
  intros Hne Htext. unfold spinName.
  rewrite get_this_bind, (length_zero_false _ Hne).
  destruct (call_shuffleNames_run w) as (shuffled & Hrun & -> & _).
  rewrite (bind_Some _ _ _ _ _ Hrun).
  rewrite get_this_bind, modify_this_bind, get_this_bind. cbn [this with_drawn with_this].
  fold (randomNames w).
  match goal with |- context [(selecting_loop ?c 0 ≫= _) ?w1] =>
    destruct (selecting_loop_run c 0 w1) as (w2 & Hloop & Hto & Hel); [done |]
  end.
  cbn [nameList with_currentPlayer] in *.
  rewrite (bind_Some _ _ _ _ _ Hloop), set_textContent_bind by done.
  eexists. split; [reflexivity |]. split; [| done].
  destruct Hto as (Hs & He & Hr & Hd & _). unfold run_to. cbn.
  rewrite Hs, He, Hr, Hd. cbn. unfold name_reveal_events.
  rewrite (length_zero_false _ Hne). repeat split; [lia | by eexists].
Qed.

Lemma spinName_throws w :
  nameList (this w) ≠ [] → current_player_text w = None →
  (spinName w).1 = None.
Proof.
  intros Hne Htext. unfold spinName.
  rewrite get_this_bind, (length_zero_false _ Hne).
  destruct (call_shuffleNames_run w) as (shuffled & Hrun & -> & _).
  rewrite (bind_Some _ _ _ _ _ Hrun).
  rewrite get_this_bind, modify_this_bind, get_this_bind, bind_run.
  match goal with |- context [selecting_loop ?c 0 ?w1] =>
    pose proof (selecting_loop_throws c 0 w1) as Hthrow;
    destruct (selecting_loop c 0 w1) as [[[] |] w2]
  end; [| done].
  cbn in Hthrow. destruct (nameList (this w)); [done |].
  discriminate Hthrow; [simpl; lia | done].
Qed.

Lemma with_currentPlayer_same s : with_currentPlayer (currentPlayer s) s = s.
Proof. by destruct s. Qed.

Lemma randomNames_ext w0 w :
  this w0 = this w → random w0 = random w → drawn w0 = drawn w →
  randomNames w0 = randomNames w.
Proof. unfold randomNames. by intros -> -> ->. Qed.

Lemma name_reveal_events_ext w0 w :
  this w0 = this w → name_reveal_events w0 = name_reveal_events w.
Proof. unfold name_reveal_events. by intros ->. Qed.

(** The start notification and the name reveal, names or no names. *)
Lemma name_phase_run w :
  (nameList (this w) ≠ [] → is_Some (current_player_text w)) →
  ∃ b,
    (notify (onSpinStart (this w));; spinName) w = (Some b, after_name_reveal w)
    ∧ run_to w (after_name_reveal w)
        (with_currentPlayer (declared_name w) (this w))
        ((invoke <$> option_list (onSpinStart (this w))) ++ name_reveal_events w)
        (if length (nameList (this w)) =? 0 then 0 else 7 * length (nameList (this w))).
Proof.
  intros Htext. unfold after_name_reveal.
  destruct (notify_run (onSpinStart (this w)) w) as (w0 & Hnotify & Hto0 & Htext0).
  rewrite (bind_Some _ _ _ _ _ Hnotify).
  pose proof Hto0 as (Hs & He & Hr & Hd & _). rewrite Nat.add_0_r in Hd.
  unfold declared_name.
  destruct (nameList (this w)) as [| name names] eqn:Hnames.
  - rewrite spinName_empty by (by rewrite Hs). exists false. split; [done |].
    simpl. rewrite with_currentPlayer_same.
    unfold run_to, name_reveal_events. rewrite Hnames. cbn.
    rewrite Hs, He, Hr, Hd, Htext0, Nat.add_0_r, <- app_assoc. done.
  - destruct (spinName_run w0) as (w1 & Hrun & Hto1 & _).
    { by rewrite Hs, Hnames. }
    { rewrite Htext0. by apply Htext. }
    rewrite Hrun. exists true. split; [done |]. cbn [snd].
    rewrite (randomNames_ext w0 w), (name_reveal_events_ext w0 w), Hs, Hnames
      in Hto1 by done.
    cbn [length Nat.eqb].
    exact (run_to_trans _ _ _ _ _ _ _ 0 _ Hto0 Hto1).
Qed.

Lemma spin_reel_run w :
  is_Some (reelContainer (this w)) → is_Some (reelAnimation (this w)) →
  ∃ w', spin_reel w = (Some awaits_animation, w')
        ∧ run_to w w' (at_await w) (reel_events w) (length (luckyMoneyList (this w))).
Proof.
  intros [children Hreel] [animation Hanim]. unfold spin_reel.
  rewrite get_this_bind, Hreel, Hanim.
  destruct (call_shuffleLuckyMoneys_run w) as (shuffled & Hrun & -> & _).
  rewrite (bind_Some _ _ _ _ _ Hrun).
  rewrite get_this_bind, modify_this_bind, emit_bind, get_this_bind, emit_bind.
  cbn [this with_drawn with_this add_events].
  fold (randomLuckyMoneys w). fold (playerLuckyMoney w).
  assert (Hat : ∀ (f : unit → M spin_point) w0,
    this w0 = with_reelContainer
                ((λ children, children ++ (to_string <$> randomLuckyMoneys w))
                   <$> reelContainer (this w)) (this w) →
    ((if shouldRemoveWinner (this w) then remove_winner (playerLuckyMoney w)
      else mret ()) ≫= f) w0
    = f () (with_this (at_await w) w0)).
  { intros f [s0 ? ? ? ?] Hs0. cbn in Hs0. subst s0. unfold at_await.
    destruct (shouldRemoveWinner (this w)); reflexivity. }
  rewrite Hat by done.
  rewrite get_this_bind, emit_bind, emit_bind, emit_bind.
  eexists. split; [reflexivity |].
  unfold run_to, reel_events. cbn. rewrite <- !app_assoc. done.
Qed.

Lemma spin_reel_unavailable w :
  reelContainer (this w) = None ∨ reelAnimation (this w) = None →
  spin_reel w = (Some (returned false), w).
Proof.
  intros H. unfold spin_reel. rewrite get_this_bind.
  destruct H as [-> | ->]; [done |]. by destruct (reelContainer (this w)).
Qed.

Lemma spin_after_await_run w :
  ∃ w', spin_after_await w = (Some true, w')
        ∧ run_to w w' (finished (this w))
            (animation_finish :: (invoke <$> option_list (onSpinEnd (this w)))) 0.
Proof.
  unfold spin_after_await.
  rewrite emit_bind, modify_this_bind, modify_this_bind, get_this_bind.
  cbn [this with_this add_events].
  match goal with |- context [(notify ?c ≫= _) ?w1] =>
    destruct (notify_run c w1) as (w' & Hnotify & Hto & _)
  end.
  rewrite (bind_Some _ _ _ _ _ Hnotify). exists w'. split; [done |].
  destruct Hto as (Hs & He & Hr & Hd & Ht). unfold run_to.
  rewrite Hs, He, Hr, Hd. cbn in *. rewrite <- app_assoc.
  repeat split; auto.
Qed.

(** ** The draw as a whole *)

Lemma both_empty_iff s :
  (length (nameList s) =? 0) && (length (luckyMoneyList s) =? 0) = true
  ↔ nameList s = [] ∧ luckyMoneyList s = [].
Proof. by rewrite andb_true_iff, !length_eqb_zero. Qed.

Lemma spin_both_empty w :
  nameList (this w) = [] → luckyMoneyList (this w) = [] →
  spin w
  = (Some false,
     add_events
       [console_error
          "Name List and Lucky Money List is empty. Cannot start spinning."] w).
Proof.
  intros Hn Hl. unfold spin, spin_before_await.
  rewrite bind_run, get_this_bind, Hn, Hl. reflexivity.
Qed.

(** Up to the [await], for a draw that has what it needs. *)
Lemma spin_before_await_run w :
  can_spin w →
  ∃ w1,
    spin_before_await w = (Some awaits_animation, w1)
    ∧ run_to w w1 (at_await (after_name_reveal w))
        ((invoke <$> option_list (onSpinStart (this w))) ++ name_reveal_events w
         ++ reel_events (after_name_reveal w))
        ((if length (nameList (this w)) =? 0 then 0 else 7 * length (nameList (this w)))
         + length (luckyMoneyList (this w))).
Proof.
  intros (Hsome & Hreel & Hanim & Htext). unfold spin_before_await.
  rewrite get_this_bind.
  destruct ((length _ =? 0) && _) eqn:Hboth.
  { by apply both_empty_iff in Hboth. }
  destruct (name_phase_run w Htext) as (b & Hrun & Hto).
  assert (Hassoc : (notify (onSpinStart (this w)) ≫= (λ _, spinName ≫= λ _, spin_reel)) w
                   = ((notify (onSpinStart (this w)) ;; spinName) ≫= λ _, spin_reel) w).
  { rewrite !bind_run. destruct (notify _ w) as [[[] |] w0]; [| done].
    by rewrite bind_run. }
  rewrite Hassoc, (bind_Some _ _ _ _ _ Hrun).
  pose proof Hto as (Hs & _).
  destruct (spin_reel_run (after_name_reveal w)) as (w1 & Hrun1 & Hto1).
  { by rewrite Hs. }
  { by rewrite Hs. }
  exists w1. split; [done |].
  rewrite Hs in Hto1. cbn [luckyMoneyList with_currentPlayer] in Hto1.
  rewrite app_assoc. eapply run_to_trans; [exact Hto | exact Hto1].
Qed.

Lemma removal_frame plm s :
  currentPlayer (removal plm s) = currentPlayer s
  ∧ havePreviousWinner (removal plm s) = havePreviousWinner s
  ∧ reelContainer (removal plm s) = reelContainer s
  ∧ maxReelItems (removal plm s) = maxReelItems s
  ∧ shouldRemoveWinner (removal plm s) = shouldRemoveWinner s
  ∧ reelAnimation (removal plm s) = reelAnimation s
  ∧ onSpinStart (removal plm s) = onSpinStart s
  ∧ onSpinEnd (removal plm s) = onSpinEnd s
  ∧ onNameListChanged (removal plm s) = onNameListChanged s.
Proof.
  unfold removal. cbn.
  by destruct ((length _ =? 0) && _).
Qed.

Lemma at_await_onSpinEnd w : onSpinEnd (at_await w) = onSpinEnd (this w).
Proof.
  unfold at_await. destruct (shouldRemoveWinner (this w)); [| done].
  by rewrite (proj1 (proj2 (proj2 (proj2 (proj2 (proj2 (proj2 (proj2 (removal_frame _ _))))))))).
Qed.

Lemma spin_run w :
  can_spin w →
  ∃ w1 w',
    spin_before_await w = (Some awaits_animation, w1)
    ∧ run_to w w1 (at_await (after_name_reveal w))
        ((invoke <$> option_list (onSpinStart (this w))) ++ name_reveal_events w
         ++ reel_events (after_name_reveal w))
        ((if length (nameList (this w)) =? 0 then 0 else 7 * length (nameList (this w)))
         + length (luckyMoneyList (this w)))
    ∧ spin w = (Some true, w')
    ∧ run_to w1 w' (finished (this w1))
        (animation_onfinish :: animation_finish
         :: (invoke <$> option_list (onSpinEnd (this w)))) 0.
Proof.
  intros Hcan. destruct (spin_before_await_run w Hcan) as (w1 & Hrun1 & Hto1).
  destruct (spin_after_await_run (add_events [animation_onfinish] w1))
    as (w' & Hrun2 & Hto2).
  exists w1, w'. split; [done |]. split; [done |]. split.
  - unfold spin. rewrite (bind_Some _ _ _ _ _ Hrun1). by rewrite emit_bind.
  - destruct Hto2 as (Hs & He & Hr & Hd & Ht). cbn in *.
    rewrite <- app_assoc in He. cbn in He.
    destruct Hto1 as (Hs1 & _). rewrite Hs1, at_await_onSpinEnd in He.
    destruct (name_phase_run w) as (b & _ & (Hs0 & _)).
    { by destruct Hcan as (_ & _ & _ & ?). }
    rewrite Hs0 in He. cbn in He.
    unfold run_to. by rewrite Hs, He, Hr, Hd.
Qed.

(** A draw that resolves [true] had what it needed. *)
Lemma spin_true_inv w w' : spin w = (Some true, w') → can_spin w.
Proof.
  intros Hspin. unfold can_spin.
  assert (Hsome : ¬ (nameList (this w) = [] ∧ luckyMoneyList (this w) = [])).
  { intros [Hn Hl]. by rewrite spin_both_empty in Hspin. }
  assert (Hboth : (length (nameList (this w)) =? 0)
                  && (length (luckyMoneyList (this w)) =? 0) = false).
  { apply not_true_iff_false. by rewrite both_empty_iff. }
  unfold spin, spin_before_await in Hspin.
  rewrite bind_run, get_this_bind, Hboth in Hspin.
  destruct (notify_run (onSpinStart (this w)) w) as (w0 & Hnotify & (Hs0 & _) & Htext0).
  rewrite (bind_Some _ _ _ _ _ Hnotify) in Hspin.
  assert (Htext : nameList (this w) ≠ [] → is_Some (current_player_text w)).
  { intros Hne. destruct (current_player_text w) as [text |] eqn:Ht; [by eexists |].
    assert (Hthrow : (spinName w0).1 = None).
    { apply spinName_throws; [by rewrite Hs0 | by rewrite Htext0]. }
    rewrite bind_run in Hspin.
    destruct (spinName w0) as [[b |] w1]; [done | done]. }
  split; [done |].
  assert (Hex : ∃ b w1, spinName w0 = (Some b, w1) ∧ this w1 = with_currentPlayer (declared_name w) (this w)).
  { destruct (name_phase_run w Htext) as (b & Hrun & (Hs & _)).
    rewrite (bind_Some _ _ _ _ _ Hnotify) in Hrun. eauto. }
  destruct Hex as (b & w1 & Hname & Hs1).
  rewrite (bind_Some _ _ _ _ _ Hname) in Hspin.
  destruct (reelContainer (this w)) as [children |] eqn:Hreel;
    [destruct (reelAnimation (this w)) as [animation |] eqn:Hanim |].
  - done.
  - rewrite spin_reel_unavailable in Hspin by (right; by rewrite Hs1). done.
  - rewrite spin_reel_unavailable in Hspin by (left; by rewrite Hs1). done.
Qed.

Lemma run_to_new_events w w' s trace draws :
  run_to w w' s trace draws → new_events w w' = trace.
Proof.
  intros (_ & He & _). unfold new_events. by rewrite He, drop_app_length.
Qed.

(** Everything a draw that resolves [true] has done, from the world [w] it
    started in and the world [after_name_reveal w] of its prize draw. *)
Lemma spin_summary w w' :
  spin w = (Some true, w') →
  can_spin w
  ∧ this (after_name_reveal w) = with_currentPlayer (declared_name w) (this w)
  ∧ random (after_name_reveal w) = random w
  ∧ drawn (after_name_reveal w) = drawn w + 7 * length (nameList (this w))
  ∧ (∃ w1, spin_before_await w = (Some awaits_animation, w1)
           ∧ this w1 = at_await (after_name_reveal w)
           ∧ new_events w w1
             = (invoke <$> option_list (onSpinStart (this w)))
               ++ name_reveal_events w ++ reel_events (after_name_reveal w)
           ∧ new_events w1 w'
             = animation_onfinish :: animation_finish
               :: (invoke <$> option_list (onSpinEnd (this w))))
  ∧ this w' = finished (at_await (after_name_reveal w))
  ∧ new_events w w'
    = (invoke <$> option_list (onSpinStart (this w)))
      ++ name_reveal_events w ++ reel_events (after_name_reveal w)
      ++ animation_onfinish :: animation_finish
         :: (invoke <$> option_list (onSpinEnd (this w)))
  ∧ random w' = random w
  ∧ drawn w'
    = drawn w + 7 * length (nameList (this w)) + length (luckyMoneyList (this w)).
Proof.
  intros Hspin. pose proof (spin_true_inv _ _ Hspin) as Hcan.
  destruct (spin_run w Hcan) as (w1 & w'' & Hbefore & Hto1 & Hspin' & Hto2).
  rewrite Hspin in Hspin'. injection Hspin' as <-.
  destruct (name_phase_run w) as (b & _ & (Hsn & _ & Hrn & Hdn & _)).
  { by destruct Hcan as (_ & _ & _ & ?). }
  assert (Hdraws : (if length (nameList (this w)) =? 0 then 0
                    else 7 * length (nameList (this w)))
                   = 7 * length (nameList (this w))).
  { by destruct (nameList (this w)). }
  rewrite Hdraws in *.
  pose proof (run_to_trans _ _ _ _ _ _ _ _ _ Hto1 Hto2) as Hto.
  rewrite <- !app_assoc in Hto.
  pose proof Hto1 as (Hs1 & _). pose proof Hto as (Hs & _ & Hr & Hd & _).
  rewrite Hs1 in Hs.
  repeat match goal with |- _ ∧ _ => split end; try done.
  - exists w1. repeat match goal with |- _ ∧ _ => split end; try done.
    + by apply run_to_new_events in Hto1.
    + by apply run_to_new_events in Hto2.
  - by apply run_to_new_events in Hto.
  - lia.
Qed.

(** The fields that the statements after the [await] leave alone. *)
Lemma finished_frame s :
  nameList (finished s) = nameList s
  ∧ currentPlayer (finished s) = currentPlayer s
  ∧ luckyMoneyList (finished s) = luckyMoneyList s
  ∧ drawHistory (finished s) = drawHistory s
  ∧ havePreviousWinner (finished s) = true.
Proof. done. Qed.

Lemma at_await_currentPlayer w :
  currentPlayer (at_await w) = currentPlayer (this w).
Proof.
  unfold at_await. destruct (shouldRemoveWinner (this w)); [| done].
  by rewrite (proj1 (removal_frame _ _)).
Qed.

Lemma at_await_reelContainer w :
  reelContainer (at_await w)
  = (λ children, children ++ (to_string <$> randomLuckyMoneys w))
    <$> reelContainer (this w).
Proof.
  unfold at_await. destruct (shouldRemoveWinner (this w)); [| done].
  by rewrite (proj1 (proj2 (proj2 (removal_frame _ _)))).
Qed.

(** The lists and the history after the removal block. *)
Lemma removal_lists plm s :
  nameList (removal plm s)
  = splice1
      (findIndex (λ name, bool_decide (Some name = currentPlayer s)) (nameList s))
      (nameList s)
  ∧ luckyMoneyList (removal plm s)
    = splice1
        (findIndex (λ luckyMoney, bool_decide (Some luckyMoney = plm))
           (luckyMoneyList s))
        (luckyMoneyList s).
Proof. unfold removal. cbn. by destruct ((length _ =? 0) && _). Qed.

Lemma removal_drawHistory plm s :
  drawHistory (removal plm s)
  = drawHistory s
    ++ [to_string (currentPlayer s) +:+ " - " +:+ to_string plm]
    ++ (if (length (nameList (removal plm s)) =? 0)
           && (length (luckyMoneyList (removal plm s)) =? 0)
        then ["-------END-------"] else []).
Proof.
  destruct (removal_lists plm s) as [-> ->].
  unfold removal. cbn.
  destruct ((length _ =? 0) && _); cbn; [| done].
  by rewrite <- app_assoc.
Qed.

(** The lists and the history at the [await], with removal. *)
Lemma at_await_removal w :
  shouldRemoveWinner (this w) = true →
  nameList (at_await w)
  = splice1
      (findIndex (λ name, bool_decide (Some name = currentPlayer (this w)))
         (nameList (this w)))
      (nameList (this w))
  ∧ luckyMoneyList (at_await w)
    = splice1
        (findIndex (λ luckyMoney, bool_decide (Some luckyMoney = playerLuckyMoney w))
           (luckyMoneyList (this w)))
        (luckyMoneyList (this w))
  ∧ drawHistory (at_await w)
    = drawHistory (this w)
      ++ [to_string (currentPlayer (this w)) +:+ " - "
          +:+ to_string (playerLuckyMoney w)]
      ++ (if (length (nameList (at_await w)) =? 0)
             && (length (luckyMoneyList (at_await w)) =? 0)
          then ["-------END-------"] else []).
Proof.
  intros Hremove. unfold at_await. rewrite Hremove.
  rewrite removal_drawHistory.
  by destruct (removal_lists (playerLuckyMoney w)
    (with_reelContainer
       ((λ children, children ++ (to_string <$> randomLuckyMoneys w))
          <$> reelContainer (this w)) (this w))) as [-> ->].
Qed.

Lemma at_await_no_removal w :
  shouldRemoveWinner (this w) = false →
  nameList (at_await w) = nameList (this w)
  ∧ luckyMoneyList (at_await w) = luckyMoneyList (this w)
  ∧ drawHistory (at_await w) = drawHistory (this w).
Proof. intros Hremove. unfold at_await. by rewrite Hremove. Qed.

(** Callbacks in a trace. *)
Lemma invoked_app t1 t2 : invoked (t1 ++ t2) = invoked t1 ++ invoked t2.
Proof. apply omap_app. Qed.

Lemma invoked_notification callback :
  invoked (invoke <$> option_list callback) = option_list callback.
Proof. by destruct callback. Qed.

Lemma invoked_timers count : ∀ i,
  invoked ((λ j, setTimeout (20 * (j + 1))) <$> seq i count) = [].
Proof. induction count as [| count IH]; intros i; [done | apply IH]. Qed.

Lemma invoked_name_reveal_events w : invoked (name_reveal_events w) = [].
Proof.
  unfold name_reveal_events. destruct (length _ =? 0); [done |].
  apply invoked_timers.
Qed.

(** * The claims *)

(** C6. Whatever the array and the random draws, [shuffleNames] and
    [shuffleLuckyMoneys] leave the array they are given as it was, and what
    they return is a permutation of it (so it has the same length and the
    same elements with the same multiplicities); a call from the engine leaves
    [this], its two lists included, unchanged. *)
Theorem shuffle_permutes_and_preserves_input {T} (rnd : nat → unit_interval)
    (array : list T) (pos : nat) (w : World) :
  ((shuffleNames rnd array pos).1.1 = array
   ∧ (shuffleNames rnd array pos).1.2 ≡ₚ Some <$> array
   ∧ length (shuffleNames rnd array pos).1.2 = length array)
  ∧ ((shuffleLuckyMoneys rnd array pos).1.1 = array
     ∧ (shuffleLuckyMoneys rnd array pos).1.2 ≡ₚ Some <$> array
     ∧ length (shuffleLuckyMoneys rnd array pos).1.2 = length array)
  ∧ this (after call_shuffleNames w) = this w
  ∧ this (after call_shuffleLuckyMoneys w) = this w.
Proof.
  destruct (shuffleNames_spec rnd array pos) as (r1 & -> & Hr1).
  destruct (shuffleLuckyMoneys_spec rnd array pos) as (r2 & -> & Hr2).
  destruct (call_shuffleNames_run w) as (s1 & Hc1 & _).
  destruct (call_shuffleLuckyMoneys_run w) as (s2 & Hc2 & _).
  unfold after. rewrite Hc1, Hc2. cbn.
  repeat split; try done.
  - by rewrite Hr1, length_fmap.
  - by rewrite Hr2, length_fmap.
Qed.

(** C4. For a non-empty pool and [maxReelItems >= 1], the sequence obtained
    by shuffling, padding and slicing has exactly
    [maxReelItems - (havePreviousWinner ? 1 : 0)] elements, each of them an
    element of the pool; for an empty pool it is empty whatever
    [maxReelItems] is.  This holds of [randomNames] and of
    [randomLuckyMoneys]. *)
Theorem reel_sequence_length_and_members {T} (rnd : nat → unit_interval)
    (pool : list T) (pos : nat) (maxReelItems : Z) (havePreviousWinner : bool) :
  let randomNames :=
    pad_and_slice maxReelItems havePreviousWinner (shuffleNames rnd pool pos).1.2 in
  let randomLuckyMoneys :=
    pad_and_slice maxReelItems havePreviousWinner
      (shuffleLuckyMoneys rnd pool pos).1.2 in
  (pool ≠ [] → (1 ≤ maxReelItems)%Z →
   (Z.of_nat (length randomNames) = maxReelItems - Number havePreviousWinner
    ∧ ∀ v, v ∈ randomNames → ∃ x, v = Some x ∧ x ∈ pool)%Z
   ∧ (Z.of_nat (length randomLuckyMoneys) = maxReelItems - Number havePreviousWinner
      ∧ ∀ v, v ∈ randomLuckyMoneys → ∃ x, v = Some x ∧ x ∈ pool)%Z)
  ∧ (pool = [] → randomNames = [] ∧ randomLuckyMoneys = []).
Proof.
  destruct (shuffleNames_spec rnd pool pos) as (r1 & -> & Hr1).
  destruct (shuffleLuckyMoneys_spec rnd pool pos) as (r2 & -> & Hr2).
  cbn [fst snd]. split.
  - intros Hne Hmax.
    assert (r1 ≠ []) by (by rewrite (shuffled_nil pool r1 Hr1)).
    assert (r2 ≠ []) by (by rewrite (shuffled_nil pool r2 Hr2)).
    split; (split; [by apply pad_and_slice_length |]); intros v Hv.
    + apply pad_and_slice_elem_of in Hv. by apply (shuffled_elem_of pool r1).
    + apply pad_and_slice_elem_of in Hv. by apply (shuffled_elem_of pool r2).
  - intros Hnil.
    subst pool.
    assert (r1 = []) as -> by (by apply (shuffled_nil [] r1 Hr1)).
    assert (r2 = []) as -> by (by apply (shuffled_nil [] r2 Hr2)).
    by rewrite pad_and_slice_nil.
Qed.

Lemma reel_sequence_length_and_members_witness :
  let randomNames :=
    pad_and_slice 5%Z true (shuffleNames (λ _, zero) ["A"; "B"] 0).1.2 in
  let randomLuckyMoneys :=
    pad_and_slice 5%Z true (shuffleLuckyMoneys (λ _, zero) ["A"; "B"] 0).1.2 in
  (Z.of_nat (length randomNames) = 5 - Number true
   ∧ ∀ v, v ∈ randomNames → ∃ x, v = Some x ∧ x ∈ ["A"; "B"])%Z
  ∧ (Z.of_nat (length randomLuckyMoneys) = 5 - Number true
     ∧ ∀ v, v ∈ randomLuckyMoneys → ∃ x, v = Some x ∧ x ∈ ["A"; "B"])%Z.
Proof.
  apply (reel_sequence_length_and_members (λ _, zero) ["A"; "B"] 0 5%Z true).
  - discriminate.
  - lia.
Defined.

(** C3. With both lists empty, [spin()] resolves [false]: it reports the
    error, calls no callback, and leaves the engine ([drawHistory] included),
    the [#current-player] element and the random stream as they were. *)
Theorem spin_rejects_empty_pools (w : World) :
  nameList (this w) = [] → luckyMoneyList (this w) = [] →
  ∃ w', spin w = (Some false, w')
        ∧ this w' = this w
        ∧ drawHistory (this w') = drawHistory (this w)
        ∧ invoked (new_events w w') = []
        ∧ new_events w w'
          = [console_error
               "Name List and Lucky Money List is empty. Cannot start spinning."]
        ∧ current_player_text w' = current_player_text w
        ∧ drawn w' = drawn w.
Proof.
  intros Hn Hl. rewrite spin_both_empty by done.
  eexists. split; [reflexivity |]. unfold new_events. cbn.
  by rewrite drop_app_length.
Qed.

Lemma spin_rejects_empty_pools_witness :
  ∃ w', spin (app_world (λ _, zero)) = (Some false, w')
        ∧ this w' = this (app_world (λ _, zero))
        ∧ drawHistory (this w') = drawHistory (this (app_world (λ _, zero)))
        ∧ invoked (new_events (app_world (λ _, zero)) w') = []
        ∧ new_events (app_world (λ _, zero)) w'
          = [console_error
               "Name List and Lucky Money List is empty. Cannot start spinning."]
        ∧ current_player_text w' = current_player_text (app_world (λ _, zero))
        ∧ drawn w' = drawn (app_world (λ _, zero)).
Proof.
  apply (spin_rejects_empty_pools (app_world (λ _, zero))); reflexivity.
Defined.

(** The callbacks of a draw that resolves [true]: the start one, then the
    end one, whichever of them the engine was given. *)
Lemma spin_invoked w w' :
  spin w = (Some true, w') →
  invoked (new_events w w')
  = option_list (onSpinStart (this w)) ++ option_list (onSpinEnd (this w)).
Proof.
  intros Hspin.
  destruct (spin_summary w w' Hspin) as (_ & _ & _ & _ & _ & _ & -> & _).
  rewrite !invoked_app, invoked_notification, invoked_name_reveal_events.
  cbn. by rewrite invoked_notification.
Qed.

(** C1. On the page of [app.ts], with the names ["A"] and the prizes ["X"]
    and whatever the random draws, [spin()] resolves [true] and the callbacks
    it has invoked are [onSpinStart] then [onSpinEnd], and no other:
    [onSpinNameStart] and [onSpinNameEnd], which [app.ts] defines and puts in
    the object it passes to the constructor, are never invoked. *)
Theorem app_spin_skips_name_callbacks (rnd : nat → unit_interval) :
  let w := after (set_names ["A"];; set_luckyMoneys ["X"]) (app_world rnd) in
  ∃ w', spin w = (Some true, w')
        ∧ invoked (new_events w w')
          = [opt_onSpinStart app_slot_options; opt_onSpinEnd app_slot_options]
        ∧ (opt_onSpinNameStart app_slot_options ∉ invoked (events w'))
        ∧ (opt_onSpinNameEnd app_slot_options ∉ invoked (events w')).
Proof.
  intros w.
  assert (Hcan : can_spin w).
  { unfold can_spin. cbn. repeat split; try (by eexists). by intros [? _]. }
  destruct (spin_run w Hcan) as (w1 & w' & _ & _ & Hspin & _).
  exists w'. split; [done |].
  pose proof (spin_invoked w w' Hspin) as Hinv. cbn in Hinv.
  split; [done |].
  destruct (spin_summary w w' Hspin) as (_ & _ & _ & _ & (w1' & _ & _ & He1 & He2) & _ & He & _).
  assert (Hev : events w' = events w ++ new_events w w').
  { unfold new_events.
    destruct (spin_run w Hcan) as (w2 & w'' & _ & (_ & Ha & _) & Hspin' & (_ & Hb & _)).
    rewrite Hspin in Hspin'. injection Hspin' as <-.
    rewrite Hb, Ha, <- app_assoc. by rewrite drop_app_length. }
  rewrite Hev, invoked_app, Hinv. cbn.
  split; intros Hin; repeat (apply elem_of_cons in Hin as [Hin | Hin]; [done |]);
    by apply elem_of_nil in Hin.
Qed.

(** The line that reports the result of a draw. *)
Lemma winner_prize_logged w w' :
  spin w = (Some true, w') →
  console_log "Result: "
    [currentPlayer (this w'); playerLuckyMoney (after_name_reveal w)]
  ∈ new_events w w'.
Proof.
  intros Hspin.
  destruct (spin_summary w w' Hspin) as (_ & Hsn & _ & _ & _ & Hs & He & _).
  rewrite He, Hs.
  cbn [finished with_havePreviousWinner with_reelContainer currentPlayer].
  rewrite at_await_currentPlayer.
  apply elem_of_app. right. apply elem_of_app. right.
  apply elem_of_app. left. unfold reel_events.
  apply list_elem_of_further, list_elem_of_here.
Qed.

(** ** Removing the winner *)

Lemma js_last_elem_of {A} (a : list (option A)) : a ≠ [] → js_last a ∈ a.
Proof.
  intros Ha. destruct (exists_last Ha) as (a' & v & ->).
  rewrite js_last_app. apply elem_of_app. right. apply list_elem_of_here.
Qed.

(** With room for one new item, the last element of a reel sequence is an
    element of the pool. *)
Lemma reel_sequence_last {T} (pool : list T) (shuffled : list (option T))
    (m : Z) (b : bool) :
  pool ≠ [] → shuffled ≡ₚ Some <$> pool → (1 ≤ m - Number b)%Z →
  ∃ x, js_last (pad_and_slice m b shuffled) = Some x ∧ x ∈ pool.
Proof.
  intros Hne Hperm Hroom.
  assert (Hs : shuffled ≠ []) by (by rewrite (shuffled_nil pool shuffled Hperm)).
  assert (Hm : (1 ≤ m)%Z) by (destruct b; simpl in Hroom; lia).
  pose proof (pad_and_slice_length m b shuffled Hs Hm) as Hlen.
  assert (Hseq : pad_and_slice m b shuffled ≠ []).
  { intros Hnil. rewrite Hnil in Hlen. simpl in Hlen. lia. }
  apply js_last_elem_of in Hseq. apply pad_and_slice_elem_of in Hseq.
  by apply (shuffled_elem_of pool shuffled).
Qed.

Lemma randomNames_last w :
  nameList (this w) ≠ [] →
  (1 ≤ maxReelItems (this w) - Number (havePreviousWinner (this w)))%Z →
  ∃ name, js_last (randomNames w) = Some name ∧ name ∈ nameList (this w).
Proof.
  intros Hne Hroom. unfold randomNames.
  destruct (shuffleNames_spec (random w) (nameList (this w)) (drawn w))
    as (shuffled & -> & Hperm).
  by apply reel_sequence_last.
Qed.

Lemma randomLuckyMoneys_last w :
  luckyMoneyList (this w) ≠ [] →
  (1 ≤ maxReelItems (this w) - Number (havePreviousWinner (this w)))%Z →
  ∃ prize, playerLuckyMoney w = Some prize ∧ prize ∈ luckyMoneyList (this w).
Proof.
  intros Hne Hroom. unfold playerLuckyMoney, randomLuckyMoneys.
  destruct (shuffleLuckyMoneys_spec (random w) (luckyMoneyList (this w)) (drawn w))
    as (shuffled & -> & Hperm).
  by apply reel_sequence_last.
Qed.

Lemma randomLuckyMoneys_nil w :
  luckyMoneyList (this w) = [] →
  randomLuckyMoneys w = [] ∧ playerLuckyMoney w = None.
Proof.
  intros Hnil. unfold playerLuckyMoney, randomLuckyMoneys. rewrite Hnil.
  cbn. by rewrite pad_and_slice_nil.
Qed.

(** With room for one new item, a reel sequence over a non-empty pool has
    elements. *)
Lemma reel_sequence_nonempty {T} (pool : list T) (shuffled : list (option T))
    (m : Z) (b : bool) :
  pool ≠ [] → shuffled ≡ₚ Some <$> pool → (1 ≤ m - Number b)%Z →
  pad_and_slice m b shuffled ≠ [].
Proof.
  intros Hne Hperm Hroom.
  assert (Hs : shuffled ≠ []) by (by rewrite (shuffled_nil pool shuffled Hperm)).
  assert (Hm : (1 ≤ m)%Z) by (destruct b; simpl in Hroom; lia).
  pose proof (pad_and_slice_length m b shuffled Hs Hm) as Hlen.
  intros Hnil. rewrite Hnil in Hlen. simpl in Hlen. lia.
Qed.

Lemma randomNames_nonempty w :
  nameList (this w) ≠ [] →
  (1 ≤ maxReelItems (this w) - Number (havePreviousWinner (this w)))%Z →
  randomNames w ≠ [].
Proof.
  intros Hne Hroom. unfold randomNames.
  destruct (shuffleNames_spec (random w) (nameList (this w)) (drawn w))
    as (shuffled & -> & Hperm).
  by apply (reel_sequence_nonempty (nameList (this w))).
Qed.

Lemma randomLuckyMoneys_nonempty w :
  luckyMoneyList (this w) ≠ [] →
  (1 ≤ maxReelItems (this w) - Number (havePreviousWinner (this w)))%Z →
  randomLuckyMoneys w ≠ [].
Proof.
  intros Hne Hroom. unfold randomLuckyMoneys.
  destruct (shuffleLuckyMoneys_spec (random w) (luckyMoneyList (this w)) (drawn w))
    as (shuffled & -> & Hperm).
  by apply (reel_sequence_nonempty (luckyMoneyList (this w))).
Qed.

(** C5, amended. In a draw that resolves [true] on a reel with room for one
    new item ([maxReelItems - (havePreviousWinner ? 1 : 0) >= 1]): when there
    are names, [randomNames] has a last element, a name of the list, and it is
    the winner name the engine holds afterwards; when there are prizes,
    [randomLuckyMoneys] has a last element, a prize of the list, and it is the
    prize reported with the winner and, with removal, written with it to the
    history.  The random draws taken are those of the two shuffles (one per
    element) and of the cycling display (six per name): none serves to pick
    the winner. *)
Theorem winner_is_last_element (w w' : World) :
  spin w = (Some true, w') →
  (1 ≤ maxReelItems (this w) - Number (havePreviousWinner (this w)))%Z →
  (nameList (this w) ≠ [] →
   last (randomNames w) = Some (currentPlayer (this w'))
   ∧ ∃ name, currentPlayer (this w') = Some name ∧ name ∈ nameList (this w))
  ∧ (luckyMoneyList (this w) ≠ [] →
     ∃ prize,
       last (randomLuckyMoneys (after_name_reveal w)) = Some (Some prize)
       ∧ prize ∈ luckyMoneyList (this w)
       ∧ console_log "Result: " [currentPlayer (this w'); Some prize]
         ∈ new_events w w'
       ∧ (shouldRemoveWinner (this w) = true →
          to_string (currentPlayer (this w')) +:+ " - " +:+ prize
          ∈ drawHistory (this w')))
  ∧ drawn w'
    = drawn w + (length (nameList (this w)) + 6 * length (nameList (this w)))
      + length (luckyMoneyList (this w)).
Proof.
  intros Hspin Hroom.
  destruct (spin_summary w w' Hspin)
    as (_ & Hsn & _ & _ & _ & Hs & He & _ & Hd).
  assert (Hcp : currentPlayer (this w') = declared_name w).
  { rewrite Hs. cbn [finished with_havePreviousWinner with_reelContainer currentPlayer].
    by rewrite at_await_currentPlayer, Hsn. }
  split; [| split].
  - intros Hne.
    assert (Hdecl : declared_name w = js_last (randomNames w)).
    { unfold declared_name. by rewrite (length_zero_false _ Hne). }
    rewrite Hcp, Hdecl. split.
    + symmetry. apply js_last_is_last. by apply randomNames_nonempty.
    + by apply randomNames_last.
  - intros Hpe.
    assert (Hpe' : luckyMoneyList (this (after_name_reveal w)) ≠ [])
      by (by rewrite Hsn).
    assert (Hroom' :
      (1 ≤ maxReelItems (this (after_name_reveal w))
           - Number (havePreviousWinner (this (after_name_reveal w))))%Z)
      by (by rewrite Hsn).
    destruct (randomLuckyMoneys_last _ Hpe' Hroom') as (prize & Hprize & Hin).
    rewrite Hsn in Hin. cbn [with_currentPlayer luckyMoneyList] in Hin.
    exists prize. split; [| split; [done | split]].
    + rewrite <- js_last_is_last by (by apply randomLuckyMoneys_nonempty).
      f_equal. exact Hprize.
    + rewrite <- Hprize. apply (winner_prize_logged w w' Hspin).
    + intros Hremove. rewrite Hs.
      cbn [finished with_havePreviousWinner with_reelContainer drawHistory
           currentPlayer].
      rewrite at_await_currentPlayer.
      assert (Hremove' : shouldRemoveWinner (this (after_name_reveal w)) = true)
        by (by rewrite Hsn).
      destruct (at_await_removal _ Hremove') as (_ & _ & ->).
      rewrite Hprize. cbn [to_string].
      apply elem_of_app. right. apply elem_of_app. left. apply list_elem_of_here.
  - lia.
Qed.

Lemma winner_is_last_element_witness :
  last (randomNames app_world_second_draw)
  = Some (currentPlayer (this (after spin app_world_second_draw)))
  ∧ currentPlayer (this (after spin app_world_second_draw)) = Some "A"
  ∧ last (randomLuckyMoneys (after_name_reveal app_world_second_draw))
    = Some (Some "X").
Proof.
  assert (Hspin : spin app_world_second_draw
                  = (Some true, after spin app_world_second_draw))
    by (vm_compute; reflexivity).
  destruct (winner_is_last_element _ _ Hspin) as (Hname & _ & _).
  - vm_compute. discriminate.
  - destruct Hname as [Hlast _]; [vm_compute; discriminate |].
    split; [exact Hlast |]. split; vm_compute; reflexivity.
Defined.

(** C5 as it is stated fails where the reel has no room: in
    [one_item_world] ([maxReelItems] 1, a previous winner on the reel) the
    draw runs over two names and two prizes and resolves [true], but both
    sequences are empty and have no last element; no winner name and no prize
    are declared ([currentPlayer] is [undefined], the entry written is
    ["undefined - undefined"]). *)
Lemma winner_is_last_element_fails_on_full_reel :
  spin one_item_world = (Some true, after spin one_item_world)
  ∧ nameList (this one_item_world) = ["B"; "C"]
  ∧ luckyMoneyList (this one_item_world) = ["Y"; "Z"]
  ∧ randomNames one_item_world = []
  ∧ randomLuckyMoneys (after_name_reveal one_item_world) = []
  ∧ currentPlayer (this (after spin one_item_world)) = None
  ∧ last (drawHistory (this (after spin one_item_world)))
    = Some "undefined - undefined"
  ∧ last (randomNames one_item_world)
    ≠ Some (currentPlayer (this (after spin one_item_world))).
Proof. vm_compute. repeat split; discriminate. Qed.

(** [findIndex] then [splice] on a value that occurs: its first occurrence
    goes, and nothing else. *)
Lemma splice1_findIndex_elem (x : string) (l : list string) :
  x ∈ l →
  ∃ l1 l2, l = l1 ++ x :: l2 ∧ (x ∉ l1)
           ∧ splice1 (findIndex (λ y, bool_decide (Some y = Some x)) l) l = l1 ++ l2.
Proof.
  intros Hx.
  destruct (list_find_elem_of (λ y, bool_decide (Some y = Some x) = true) l x Hx)
    as [[i y] Hfind].
  { by apply bool_decide_eq_true. }
  unfold findIndex. rewrite Hfind.
  apply list_find_Some in Hfind as (Hi & Hy & Hmin).
  apply bool_decide_eq_true in Hy. injection Hy as ->.
  pose proof (lookup_lt_Some _ _ _ Hi) as Hlt.
  exists (take i l), (drop (S i) l). split; [by rewrite take_drop_middle |]. split.
  - intros Hin. apply list_elem_of_lookup in Hin as [j Hj].
    pose proof (lookup_lt_Some _ _ _ Hj) as Hjlt. rewrite length_take in Hjlt.
    rewrite lookup_take_lt in Hj by lia.
    apply (Hmin j x Hj); [lia |]. by apply bool_decide_eq_true.
  - unfold splice1. destruct (Z.ltb_spec (Z.of_nat i) 0); [lia |].
    rewrite Z.min_l, Nat2Z.id by lia. apply delete_take_drop.
Qed.

(** On a value that does not occur, [findIndex] gives [-1] and [splice]
    takes the last element away. *)
Lemma splice1_findIndex_missing (v : option string) (l : list string) :
  (∀ x, x ∈ l → Some x ≠ v) →
  splice1 (findIndex (λ y, bool_decide (Some y = v)) l) l = take (length l - 1) l.
Proof.
  intros Hmiss. unfold findIndex.
  assert (Hnone : list_find (λ y, bool_decide (Some y = v) = true) l = None).
  { apply list_find_None, Forall_forall. intros x Hx Hb.
    apply bool_decide_eq_true in Hb. by apply (Hmiss x). }
  rewrite Hnone. unfold splice1. cbn.
  destruct l as [| x l]; [done |].
  replace (Z.to_nat (Z.max (Z.of_nat (length (x :: l)) + -1) 0))
    with (length (x :: l) - 1) by (simpl; lia).
  rewrite delete_take_drop, drop_ge by (simpl; lia). by rewrite app_nil_r.
Qed.

Lemma occurrences_first_removed (x : string) (l1 l2 : list string) :
  occurrences (Some x) (l1 ++ l2) + 1 = occurrences (Some x) (l1 ++ x :: l2).
Proof.
  unfold occurrences. rewrite !filter_app, filter_cons_True by done.
  rewrite !length_app. simpl. lia.
Qed.

(** The two lists after a draw with removal, from those before it. *)
Lemma spin_removal_lists w w' :
  spin w = (Some true, w') → shouldRemoveWinner (this w) = true →
  currentPlayer (this w') = declared_name w
  ∧ nameList (this w')
    = splice1
        (findIndex (λ name, bool_decide (Some name = declared_name w))
           (nameList (this w)))
        (nameList (this w))
  ∧ luckyMoneyList (this w')
    = splice1
        (findIndex
           (λ luckyMoney,
              bool_decide (Some luckyMoney = playerLuckyMoney (after_name_reveal w)))
           (luckyMoneyList (this w)))
        (luckyMoneyList (this w))
  ∧ drawHistory (this w')
    = drawHistory (this w)
      ++ [to_string (declared_name w) +:+ " - "
          +:+ to_string (playerLuckyMoney (after_name_reveal w))]
      ++ (if (length (nameList (this w')) =? 0)
             && (length (luckyMoneyList (this w')) =? 0)
          then ["-------END-------"] else []).
Proof.
  intros Hspin Hremove.
  destruct (spin_summary w w' Hspin) as (_ & Hsn & _ & _ & _ & -> & _).
  assert (Hremove' : shouldRemoveWinner (this (after_name_reveal w)) = true)
    by (by rewrite Hsn).
  destruct (at_await_removal _ Hremove') as (Hn & Hl & Hh).
  cbn [finished with_havePreviousWinner with_reelContainer
       nameList luckyMoneyList drawHistory currentPlayer].
  rewrite at_await_currentPlayer, Hh. rewrite Hsn in Hn, Hl |- *.
  cbn [with_currentPlayer nameList luckyMoneyList drawHistory currentPlayer]
    in Hn, Hl |- *.
  done.
Qed.

(** C7, amended. After a draw with removal that resolves [true], when the
    reel has room for one new item,
    [maxReelItems - (havePreviousWinner ? 1 : 0) >= 1]: if there were names,
    a winner name is declared, its first occurrence has left [nameList] and
    nothing else has, so it occurs exactly once less; and if there were
    prizes, the same holds of the winning prize and [luckyMoneyList]. *)
Theorem winner_removed_once (w w' : World) :
  spin w = (Some true, w') →
  shouldRemoveWinner (this w) = true →
  (1 ≤ maxReelItems (this w) - Number (havePreviousWinner (this w)))%Z →
  (nameList (this w) ≠ [] →
   ∃ name l1 l2,
     currentPlayer (this w') = Some name
     ∧ nameList (this w) = l1 ++ name :: l2 ∧ (name ∉ l1)
     ∧ nameList (this w') = l1 ++ l2
     ∧ occurrences (Some name) (nameList (this w')) + 1
       = occurrences (Some name) (nameList (this w)))
  ∧ (luckyMoneyList (this w) ≠ [] →
     ∃ prize l1 l2,
       console_log "Result: " [currentPlayer (this w'); Some prize] ∈ new_events w w'
       ∧ luckyMoneyList (this w) = l1 ++ prize :: l2 ∧ (prize ∉ l1)
       ∧ luckyMoneyList (this w') = l1 ++ l2
       ∧ occurrences (Some prize) (luckyMoneyList (this w')) + 1
         = occurrences (Some prize) (luckyMoneyList (this w))).
Proof.
  intros Hspin Hremove Hroom.
  destruct (spin_removal_lists w w' Hspin Hremove) as (Hcp & Hn & Hl & _).
  destruct (spin_summary w w' Hspin) as (_ & Hsn & _ & _ & _ & _ & _).
  split.
  - intros Hne.
    destruct (randomNames_last w Hne Hroom) as (name & Hlast & Hin).
    assert (Hdecl : declared_name w = Some name).
    { unfold declared_name. by rewrite (length_zero_false _ Hne). }
    rewrite Hdecl in *.
    destruct (splice1_findIndex_elem name _ Hin) as (l1 & l2 & Hsplit & Hfirst & Hsp).
    exists name, l1, l2. rewrite Hn, Hsp.
    repeat split; try done.
    rewrite Hsplit. apply occurrences_first_removed.
  - intros Hne.
    destruct (randomLuckyMoneys_last (after_name_reveal w)) as (prize & Hlast & Hin).
    { by rewrite Hsn. }
    { by rewrite Hsn. }
    rewrite Hsn in Hin. cbn [luckyMoneyList with_currentPlayer] in Hin.
    rewrite Hlast in Hl.
    destruct (splice1_findIndex_elem prize _ Hin) as (l1 & l2 & Hsplit & Hfirst & Hsp).
    exists prize, l1, l2. rewrite Hl, Hsp.
    repeat split; try done.
    + pose proof (winner_prize_logged w w' Hspin) as Hlog. by rewrite Hlast in Hlog.
    + rewrite Hsplit. apply occurrences_first_removed.
Qed.

Lemma winner_removed_once_witness :
  ∃ name l1 l2,
    currentPlayer (this (after spin app_world_A_X)) = Some name
    ∧ nameList (this app_world_A_X) = l1 ++ name :: l2 ∧ (name ∉ l1)
    ∧ nameList (this (after spin app_world_A_X)) = l1 ++ l2
    ∧ occurrences (Some name) (nameList (this (after spin app_world_A_X))) + 1
      = occurrences (Some name) (nameList (this app_world_A_X)).
Proof.
  assert (Hspin : spin app_world_A_X = (Some true, after spin app_world_A_X))
    by (vm_compute; reflexivity).
  assert (Hremove : shouldRemoveWinner (this app_world_A_X) = true) by reflexivity.
  assert (Hroom : (1 ≤ maxReelItems (this app_world_A_X)
                       - Number (havePreviousWinner (this app_world_A_X)))%Z)
    by (vm_compute; discriminate).
  destruct (winner_removed_once _ _ Hspin Hremove Hroom) as [Hnames _].
  apply Hnames. discriminate.
Defined.

(** C7 as it is stated fails where the reel has no room: in
    [one_item_world] ([maxReelItems] 1, a previous winner on the reel) the
    draw resolves [true] with removal, declares no winner name
    ([currentPlayer] is [undefined]), and takes ["C"] out of ["B"; "C"]; the
    declared winner occurs as often after as before. *)
Lemma winner_removed_once_fails_on_full_reel :
  spin one_item_world = (Some true, after spin one_item_world)
  ∧ shouldRemoveWinner (this one_item_world) = true
  ∧ nameList (this one_item_world) = ["B"; "C"]
  ∧ currentPlayer (this (after spin one_item_world)) = None
  ∧ nameList (this (after spin one_item_world)) = ["B"]
  ∧ occurrences (currentPlayer (this (after spin one_item_world)))
      (nameList (this (after spin one_item_world))) + 1
    ≠ occurrences (currentPlayer (this (after spin one_item_world)))
        (nameList (this one_item_world)).
Proof. vm_compute. repeat split; discriminate. Qed.

(** C10, amended. With removal, names, no prize, the page elements in place
    and room on the reel for one new item
    ([maxReelItems - (havePreviousWinner ? 1 : 0) >= 1]), [spin()] resolves
    [true]: the prize sequence is empty and the winning prize [undefined], the
    entry added to the history is the winner name followed by
    [" - undefined"], [luckyMoneyList] is still empty, and the first
    occurrence of the winner name has left [nameList]. *)
Theorem spin_without_prizes (w : World) :
  shouldRemoveWinner (this w) = true →
  nameList (this w) ≠ [] → luckyMoneyList (this w) = [] →
  is_Some (reelContainer (this w)) → is_Some (reelAnimation (this w)) →
  is_Some (current_player_text w) →
  (1 ≤ maxReelItems (this w) - Number (havePreviousWinner (this w)))%Z →
  ∃ w' name l1 l2,
    spin w = (Some true, w')
    ∧ randomLuckyMoneys (after_name_reveal w) = []
    ∧ console_log "Result: " [Some name; None] ∈ new_events w w'
    ∧ currentPlayer (this w') = Some name
    ∧ drawHistory (this w')
      = drawHistory (this w) ++ [name +:+ " - undefined"]
        ++ (if length (nameList (this w')) =? 0 then ["-------END-------"] else [])
    ∧ luckyMoneyList (this w') = []
    ∧ nameList (this w) = l1 ++ name :: l2 ∧ (name ∉ l1)
    ∧ nameList (this w') = l1 ++ l2.
Proof.
  intros Hremove Hne Hnil Hreel Hanim Htext Hroom.
  assert (Hcan : can_spin w).
  { unfold can_spin. repeat split; try done. by intros [? _]. }
  destruct (spin_run w Hcan) as (w1 & w' & _ & _ & Hspin & _).
  destruct (spin_removal_lists w w' Hspin Hremove) as (Hcp & Hn & Hl & Hh).
  destruct (spin_summary w w' Hspin) as (_ & Hsn & _ & _ & _ & _ & _).
  destruct (randomLuckyMoneys_nil (after_name_reveal w)) as [Hseq Hprize].
  { by rewrite Hsn. }
  destruct (randomNames_last w Hne Hroom) as (name & Hlast & Hin).
  assert (Hdecl : declared_name w = Some name).
  { unfold declared_name. by rewrite (length_zero_false _ Hne). }
  destruct (splice1_findIndex_elem name _ Hin) as (l1 & l2 & Hsplit & Hfirst & Hsp).
  pose proof (winner_prize_logged w w' Hspin) as Hlog.
  rewrite Hdecl in *. rewrite Hprize in *. rewrite Hnil in Hl. cbn in Hl.
  exists w', name, l1, l2. rewrite Hh, Hl, Hn, Hsp. cbn [length Nat.eqb].
  rewrite andb_true_r.
  repeat split; try done. by rewrite Hcp in Hlog.
Qed.

Lemma spin_without_prizes_witness :
  ∃ w' name l1 l2,
    spin (after (set_names ["A"; "B"]) (app_world (λ _, zero))) = (Some true, w')
    ∧ randomLuckyMoneys
        (after_name_reveal (after (set_names ["A"; "B"]) (app_world (λ _, zero)))) = []
    ∧ console_log "Result: " [Some name; None]
      ∈ new_events (after (set_names ["A"; "B"]) (app_world (λ _, zero))) w'
    ∧ currentPlayer (this w') = Some name
    ∧ drawHistory (this w')
      = drawHistory (this (after (set_names ["A"; "B"]) (app_world (λ _, zero))))
        ++ [name +:+ " - undefined"]
        ++ (if length (nameList (this w')) =? 0 then ["-------END-------"] else [])
    ∧ luckyMoneyList (this w') = []
    ∧ nameList (this (after (set_names ["A"; "B"]) (app_world (λ _, zero))))
      = l1 ++ name :: l2
    ∧ (name ∉ l1)
    ∧ nameList (this w') = l1 ++ l2.
Proof.
  apply (spin_without_prizes (after (set_names ["A"; "B"]) (app_world (λ _, zero)))).
  - reflexivity.
  - discriminate.
  - reflexivity.
  - by eexists.
  - by eexists.
  - by eexists.
  - vm_compute. discriminate.
Defined.

(** C10 as it is stated fails where the reel has no room: in
    [one_item_world_no_prize] the draw resolves [true] with removal, names and
    no prize, the entry added is ["undefined - undefined"], and ["C"] leaves
    ["B"; "C"] though no winner name is declared. *)
Lemma spin_without_prizes_fails_on_full_reel :
  spin one_item_world_no_prize = (Some true, after spin one_item_world_no_prize)
  ∧ shouldRemoveWinner (this one_item_world_no_prize) = true
  ∧ nameList (this one_item_world_no_prize) = ["B"; "C"]
  ∧ luckyMoneyList (this one_item_world_no_prize) = []
  ∧ currentPlayer (this (after spin one_item_world_no_prize)) = None
  ∧ drawHistory (this (after spin one_item_world_no_prize))
    = ["A - undefined"; "undefined - undefined"]
  ∧ nameList (this (after spin one_item_world_no_prize)) = ["B"]
  ∧ occurrences (currentPlayer (this (after spin one_item_world_no_prize)))
      (nameList (this (after spin one_item_world_no_prize))) + 1
    ≠ occurrences (currentPlayer (this (after spin one_item_world_no_prize)))
        (nameList (this one_item_world_no_prize)).
Proof. vm_compute. repeat split; discriminate. Qed.

(** ** The setters *)

Lemma set_names_run names w :
  ∃ w', set_names names w = (Some (), w')
        ∧ run_to w w'
            (with_havePreviousWinner false
               (with_reelContainer ((λ _, []) <$> reelContainer (this w))
                  (with_nameList names (this w))))
            (invoke <$> option_list (onNameListChanged (this w))) 0
        ∧ current_player_text w' = current_player_text w.
Proof.
  unfold set_names.
  rewrite !modify_this_bind, get_this_bind. cbn [this with_this].
  match goal with |- context [notify ?c ?w1] =>
    destruct (notify_run c w1) as (w' & Hnotify & Hto & Htext)
  end.
  exists w'. split; [done |]. split; [| done].
  destruct Hto as (Hs & He & Hr & Hd & Ht). unfold run_to.
  rewrite Hs, He, Hr, Hd. done.
Qed.

Lemma after_bind {A B} (m : M A) (k : M B) w a w' :
  m w = (Some a, w') → after (m ;; k) w = after k w'.
Proof. intros Hm. unfold after. by rewrite (bind_Some _ _ _ _ _ Hm). Qed.

(** C9. Assigning to [names] puts the given list in [nameList] as it is,
    sets [havePreviousWinner] to [false] (also in a world that a draw has
    just left with [havePreviousWinner] set), and calls [onNameListChanged]
    once if the engine was given one, and nothing else.  Assigning to
    [luckyMoneys] puts the given list in [luckyMoneyList] and changes nothing
    else: not [havePreviousWinner], not the trace. *)
Theorem setters_replace_lists (names luckyMoneys : list string) (w : World) :
  (∃ w', set_names names w = (Some (), w')
         ∧ nameList (this w') = names
         ∧ havePreviousWinner (this w') = false
         ∧ new_events w w' = invoke <$> option_list (onNameListChanged (this w))
         ∧ ∀ h, onNameListChanged (this w) = Some h → new_events w w' = [invoke h])
  ∧ (∀ w0, spin w0 = (Some true, w) →
           havePreviousWinner (this w) = true
           ∧ havePreviousWinner (this (after (set_names names) w)) = false)
  ∧ set_luckyMoneys luckyMoneys w
    = (Some (), with_this (with_luckyMoneyList luckyMoneys (this w)) w)
  ∧ luckyMoneyList (this (after (set_luckyMoneys luckyMoneys) w)) = luckyMoneys
  ∧ nameList (this (after (set_luckyMoneys luckyMoneys) w)) = nameList (this w)
  ∧ havePreviousWinner (this (after (set_luckyMoneys luckyMoneys) w))
    = havePreviousWinner (this w)
  ∧ events (after (set_luckyMoneys luckyMoneys) w) = events w.
Proof.
  destruct (set_names_run names w) as (w' & Hrun & Hto & _).
  pose proof (run_to_new_events _ _ _ _ _ Hto) as Hnew.
  destruct Hto as (Hs & _).
  split; [| split; [| done]].
  - exists w'. rewrite Hnew.
    assert (Hn : nameList (this w') = names) by (by rewrite Hs).
    assert (Hp : havePreviousWinner (this w') = false) by (by rewrite Hs).
    repeat split; try done. by intros h ->.
  - intros w0 Hspin.
    destruct (spin_summary w0 w Hspin) as (_ & _ & _ & _ & _ & Hfin & _).
    split; [by rewrite Hfin |].
    unfold after. rewrite Hrun. cbn [snd]. by rewrite Hs.
Qed.

Lemma setters_replace_lists_witness :
  havePreviousWinner (this (after spin app_world_A_X)) = true
  ∧ havePreviousWinner
      (this (after (set_names ["B"]) (after spin app_world_A_X))) = false
  ∧ new_events (after spin app_world_A_X)
      (after (set_names ["B"]) (after spin app_world_A_X))
    = [invoke stopWinningAnimation].
Proof.
  destruct (setters_replace_lists ["B"] ["Y"] (after spin app_world_A_X))
    as ((w' & Hrun & _ & _ & _ & Honce) & Hspin & _).
  destruct (Hspin app_world_A_X) as [Htrue Hfalse]; [vm_compute; reflexivity |].
  split; [exact Htrue |]. split; [exact Hfalse |].
  unfold after at 2. rewrite Hrun. apply (Honce stopWinningAnimation).
  vm_compute. reflexivity.
Defined.

(** ** One name, one prize *)

(** C8, amended. From a state with the names ["A"], the prizes ["X"], an
    empty history and removal, on a reel with room for one new item
    ([maxReelItems - (havePreviousWinner ? 1 : 0) >= 1]): on a page with its
    elements [spin()] resolves [true], and a [spin()] that resolves [true]
    leaves both lists empty and the history equal to
    ["A - X"; "-------END-------"].  In every draw that resolves [true], the
    history grows by nothing without removal, and with removal by the entry of
    the draw followed by the end-of-round line exactly when both lists are
    empty after the removal. *)
Theorem single_pair_draw_ends_round (w : World) :
  nameList (this w) = ["A"] → luckyMoneyList (this w) = ["X"] →
  drawHistory (this w) = [] → shouldRemoveWinner (this w) = true →
  (1 ≤ maxReelItems (this w) - Number (havePreviousWinner (this w)))%Z →
  (is_Some (reelContainer (this w)) → is_Some (reelAnimation (this w)) →
   is_Some (current_player_text w) → ∃ w', spin w = (Some true, w'))
  ∧ (∀ w', spin w = (Some true, w') →
       nameList (this w') = [] ∧ luckyMoneyList (this w') = []
       ∧ drawHistory (this w') = ["A - X"; "-------END-------"])
  ∧ (∀ v v', spin v = (Some true, v') →
       drawHistory (this v')
       = drawHistory (this v)
         ++ (if shouldRemoveWinner (this v)
             then [to_string (currentPlayer (this v')) +:+ " - "
                   +:+ to_string (playerLuckyMoney (after_name_reveal v))]
                  ++ (if (length (nameList (this v')) =? 0)
                         && (length (luckyMoneyList (this v')) =? 0)
                      then ["-------END-------"] else [])
             else [])).
Proof.
  intros Hnames Hprizes Hhistory Hremove Hroom.
  split; [| split].
  - intros Hreel Hanim Htext.
    assert (Hcan : can_spin w).
    { unfold can_spin. rewrite Hnames. repeat split; try done. by intros [? _]. }
    destruct (spin_run w Hcan) as (w1 & w' & _ & _ & Hspin & _). eauto.
  - intros w' Hspin.
    destruct (spin_removal_lists w w' Hspin Hremove) as (_ & Hn & Hl & Hh).
    destruct (spin_summary w w' Hspin) as (_ & Hsn & _ & _ & _ & _ & _).
    destruct (randomNames_last w) as (name & Hlast & Hin).
    { by rewrite Hnames. }
    { done. }
    destruct (randomLuckyMoneys_last (after_name_reveal w)) as (prize & Hprize & Hinp).
    { rewrite Hsn. cbn [with_currentPlayer luckyMoneyList]. by rewrite Hprizes. }
    { by rewrite Hsn. }
    assert (Hdecl : declared_name w = Some "A").
    { unfold declared_name. rewrite Hlast. rewrite Hnames in Hin |- *. cbn.
      apply list_elem_of_singleton in Hin. by subst. }
    assert (Hx : playerLuckyMoney (after_name_reveal w) = Some "X").
    { rewrite Hprize. rewrite Hsn in Hinp. cbn in Hinp. rewrite Hprizes in Hinp.
      apply list_elem_of_singleton in Hinp. by subst. }
    rewrite Hh, Hn, Hl, Hdecl, Hx, Hnames, Hprizes, Hhistory. by vm_compute.
  - intros v v' Hspin.
    destruct (shouldRemoveWinner (this v)) eqn:Hremovev.
    + destruct (spin_removal_lists v v' Hspin Hremovev) as (Hcp & _ & _ & Hh).
      by rewrite Hh, Hcp.
    + destruct (spin_summary v v' Hspin) as (_ & Hsn & _ & _ & _ & -> & _).
      cbn [finished with_havePreviousWinner with_reelContainer drawHistory].
      destruct (at_await_no_removal (after_name_reveal v)) as (_ & _ & ->).
      { by rewrite Hsn. }
      by rewrite Hsn, app_nil_r.
Qed.

Lemma single_pair_draw_ends_round_witness :
  havePreviousWinner (this app_world_second_draw) = true
  ∧ (∃ w', spin app_world_second_draw = (Some true, w'))
  ∧ nameList (this (after spin app_world_second_draw)) = []
  ∧ luckyMoneyList (this (after spin app_world_second_draw)) = []
  ∧ drawHistory (this (after spin app_world_second_draw))
    = ["A - X"; "-------END-------"].
Proof.
  destruct (single_pair_draw_ends_round app_world_second_draw)
    as (Hruns & Hends & _).
  - vm_compute. reflexivity.
  - vm_compute. reflexivity.
  - vm_compute. reflexivity.
  - vm_compute. reflexivity.
  - vm_compute. discriminate.
  - split; [vm_compute; reflexivity |]. split.
    + apply Hruns; vm_compute; eexists; reflexivity.
    + apply Hends. vm_compute. reflexivity.
Defined.

(** C8 as it is stated fails where the reel has no room: in
    [one_item_world_A_X] ([maxReelItems] 1, a previous winner on the reel)
    the names are ["A"], the prizes ["X"], the history is empty and removal is
    on; the draw resolves [true] and empties both lists, but it declares no
    winner and the history it leaves is
    ["undefined - undefined"; "-------END-------"]. *)
Lemma single_pair_draw_fails_on_full_reel :
  nameList (this one_item_world_A_X) = ["A"]
  ∧ luckyMoneyList (this one_item_world_A_X) = ["X"]
  ∧ drawHistory (this one_item_world_A_X) = []
  ∧ shouldRemoveWinner (this one_item_world_A_X) = true
  ∧ spin one_item_world_A_X = (Some true, after spin one_item_world_A_X)
  ∧ nameList (this (after spin one_item_world_A_X)) = []
  ∧ luckyMoneyList (this (after spin one_item_world_A_X)) = []
  ∧ drawHistory (this (after spin one_item_world_A_X))
    = ["undefined - undefined"; "-------END-------"]
  ∧ drawHistory (this (after spin one_item_world_A_X))
    ≠ ["A - X"; "-------END-------"].
Proof. vm_compute. repeat split; discriminate. Qed.

(** ** Removal and the animation *)

(** Nothing up to the [await] is the animation's finish signal. *)
Lemma no_onfinish_before_await w wn :
  animation_onfinish
  ∉ (invoke <$> option_list (onSpinStart (this w)))
    ++ name_reveal_events w ++ reel_events wn.
Proof.
  rewrite !not_elem_of_app. repeat split.
  - intros (h & Hh & _)%list_elem_of_fmap. discriminate.
  - unfold name_reveal_events. destruct (length _ =? 0).
    + intros Hin%list_elem_of_singleton. discriminate.
    + intros (i & Hi & _)%list_elem_of_fmap. discriminate.
  - unfold reel_events. intros Hin.
    repeat (apply elem_of_cons in Hin as [Hin | Hin]; [discriminate |]).
    by apply elem_of_nil in Hin.
Qed.

(** C2, amended. In a draw with removal that resolves [true], the winner has
    left the two lists and the history has its new entry before the animation
    is played and awaited: when [spin] reaches [await animationPromise] the
    reel holds the new items, the lists and the history are already updated,
    the last effects are the two lines that report the lists as they are
    after the removal and then the play, and the finish signal has not been
    seen.  After the signal come [finish()] and [onSpinEnd], and the lists and
    the history do not change any more. *)
Theorem removal_precedes_animation (w w' : World) :
  spin w = (Some true, w') →
  shouldRemoveWinner (this w) = true →
  ∃ w1,
    spin_before_await w = (Some awaits_animation, w1)
    ∧ reelContainer (this w1)
      = (λ children,
           children ++ (to_string <$> randomLuckyMoneys (after_name_reveal w)))
        <$> reelContainer (this w)
    ∧ nameList (this w1)
      = splice1
          (findIndex (λ name, bool_decide (Some name = currentPlayer (this w')))
             (nameList (this w)))
          (nameList (this w))
    ∧ luckyMoneyList (this w1)
      = splice1
          (findIndex
             (λ luckyMoney,
                bool_decide (Some luckyMoney = playerLuckyMoney (after_name_reveal w)))
             (luckyMoneyList (this w)))
          (luckyMoneyList (this w))
    ∧ drawHistory (this w1)
      = drawHistory (this w)
        ++ [to_string (currentPlayer (this w')) +:+ " - "
            +:+ to_string (playerLuckyMoney (after_name_reveal w))]
        ++ (if (length (nameList (this w1)) =? 0)
               && (length (luckyMoneyList (this w1)) =? 0)
            then ["-------END-------"] else [])
    ∧ (∃ earlier,
         new_events w w1
         = earlier
           ++ [console_log "Remaining players: " (Some <$> nameList (this w1));
               console_log "Remaining lucky money: "
                 (Some <$> luckyMoneyList (this w1));
               animation_play])
    ∧ (animation_onfinish ∉ new_events w w1)
    ∧ new_events w1 w'
      = animation_onfinish :: animation_finish
        :: (invoke <$> option_list (onSpinEnd (this w)))
    ∧ nameList (this w') = nameList (this w1)
    ∧ luckyMoneyList (this w') = luckyMoneyList (this w1)
    ∧ drawHistory (this w') = drawHistory (this w1).
Proof.
  intros Hspin Hremove.
  destruct (spin_removal_lists w w' Hspin Hremove) as (Hcp & Hn & Hl & Hh).
  destruct (spin_summary w w' Hspin)
    as (_ & Hsn & _ & _ & (w1 & Hbefore & Hs1 & He1 & He2) & Hs & _).
  assert (Hlists : nameList (this w') = nameList (this w1)
                   ∧ luckyMoneyList (this w') = luckyMoneyList (this w1)
                   ∧ drawHistory (this w') = drawHistory (this w1)).
  { by rewrite Hs, Hs1. }
  destruct Hlists as (Hn1 & Hl1 & Hh1).
  assert (Hreel : reelContainer (this w1)
                  = (λ children,
                       children
                       ++ (to_string <$> randomLuckyMoneys (after_name_reveal w)))
                    <$> reelContainer (this w)).
  { by rewrite Hs1, at_await_reelContainer, Hsn. }
  exists w1. rewrite <- Hn1, <- Hl1, <- Hh1, Hcp.
  repeat match goal with |- _ ∧ _ => split end; try done.
  - rewrite He1, Hn1, Hl1, Hs1. unfold reel_events.
    exists ((invoke <$> option_list (onSpinStart (this w)))
            ++ name_reveal_events w
            ++ [console_log "Displayed items: "
                  (randomLuckyMoneys (after_name_reveal w));
                console_log "Result: "
                  [currentPlayer (this (after_name_reveal w));
                   playerLuckyMoney (after_name_reveal w)]]).
    by rewrite <- !app_assoc.
  - rewrite He1. apply no_onfinish_before_await.
Qed.

Lemma removal_precedes_animation_witness :
  ∃ w1,
    spin_before_await app_world_A_X = (Some awaits_animation, w1)
    ∧ (animation_onfinish ∉ new_events app_world_A_X w1)
    ∧ nameList (this (after spin app_world_A_X)) = nameList (this w1)
    ∧ luckyMoneyList (this (after spin app_world_A_X)) = luckyMoneyList (this w1)
    ∧ drawHistory (this (after spin app_world_A_X)) = drawHistory (this w1).
Proof.
  assert (Hspin : spin app_world_A_X = (Some true, after spin app_world_A_X))
    by (vm_compute; reflexivity).
  assert (Hremove : shouldRemoveWinner (this app_world_A_X) = true) by reflexivity.
  destruct (removal_precedes_animation _ _ Hspin Hremove)
    as (w1 & Hbefore & _ & _ & _ & _ & _ & Hno & _ & Hn & Hl & Hh).
  exists w1. exact (conj Hbefore (conj Hno (conj Hn (conj Hl Hh)))).
Defined.

(** C2 as it is stated fails: on the page of [app.ts] with the names ["A"]
    and the prizes ["X"], when [spin] waits for the animation and the finish
    signal has not come, the two lists are already empty and the history
    already has its two new lines. *)
Lemma removal_before_animation_finish :
  ∃ w1,
    spin_before_await app_world_A_X = (Some awaits_animation, w1)
    ∧ (animation_onfinish ∉ events w1)
    ∧ nameList (this app_world_A_X) = ["A"] ∧ nameList (this w1) = []
    ∧ luckyMoneyList (this app_world_A_X) = ["X"] ∧ luckyMoneyList (this w1) = []
    ∧ drawHistory (this app_world_A_X) = []
    ∧ drawHistory (this w1) = ["A - X"; "-------END-------"].
Proof.
  exists (after spin_before_await app_world_A_X).
  split; [vm_compute; reflexivity |]. split; [| vm_compute; repeat split].
  vm_compute. intros Hin.
  repeat (apply elem_of_cons in Hin as [Hin | Hin]; [discriminate |]).
  by apply elem_of_nil in Hin.
Qed.

(** * More of the engine *)

(** ** How a draw settles *)

Lemma selecting_loop_throws_at count i w :
  0 < count → current_player_text w = None →
  selecting_loop count i w = (None, with_drawn (S (drawn w)) w).
Proof.
  intros Hc Htext. destruct count as [| count]; [lia |].
  cbn [selecting_loop]. rewrite get_this_bind, Math_random_bind, bind_run.
  unfold set_textContent. cbn. by rewrite Htext.
Qed.

Lemma spinName_throws_at w :
  nameList (this w) ≠ [] → current_player_text w = None →
  ∃ w', spinName w = (None, w')
        ∧ this w' = with_currentPlayer (js_last (randomNames w)) (this w)
        ∧ events w' = events w
        ∧ random w' = random w
        ∧ drawn w' = drawn w + length (nameList (this w)) + 1
        ∧ current_player_text w' = None.
Proof.
  intros Hne Htext. unfold spinName.
  rewrite get_this_bind, (length_zero_false _ Hne).
  destruct (call_shuffleNames_run w) as (shuffled & Hrun & -> & _).
  rewrite (bind_Some _ _ _ _ _ Hrun).
  rewrite get_this_bind, modify_this_bind, get_this_bind, bind_run.
  cbn [this with_drawn with_this]. fold (randomNames w).
  rewrite selecting_loop_throws_at.
  - eexists. split; [reflexivity |]. cbn. repeat split; [lia | done].
  - cbn. destruct (nameList (this w)); [done | simpl; lia].
  - done.
Qed.

Lemma spin_rejects_run w :
  nameList (this w) ≠ [] → current_player_text w = None →
  ∃ w', spin w = (None, w')
        ∧ this w' = with_currentPlayer (js_last (randomNames w)) (this w)
        ∧ events w' = events w ++ (invoke <$> option_list (onSpinStart (this w)))
        ∧ random w' = random w
        ∧ drawn w' = drawn w + length (nameList (this w)) + 1.
Proof.
  intros Hne Htext. unfold spin, spin_before_await.
  rewrite bind_run, get_this_bind.
  destruct ((length _ =? 0) && _) eqn:Hboth.
  { apply both_empty_iff in Hboth as [? _]. done. }
  destruct (notify_run (onSpinStart (this w)) w)
    as (w0 & Hnotify & (Hs0 & He0 & Hr0 & Hd0 & _) & Htext0).
  rewrite (bind_Some _ _ _ _ _ Hnotify).
  destruct (spinName_throws_at w0) as (w' & Hrun & Hs & He & Hr & Hd & _).
  { by rewrite Hs0. }
  { by rewrite Htext0. }
  rewrite bind_run, Hrun. exists w'. split; [done |].
  rewrite (randomNames_ext w0 w) in Hs by (done || lia).
  rewrite Hs0 in Hs, Hd.
  repeat split; [done | congruence | congruence | lia].
Qed.

(** X1. With names to draw from and no [#current-player] element in the
    document, [spin()] rejects: it has called [onSpinStart], shuffled the
    names, overwritten [currentPlayer] and taken one more random number, and
    it stops there.  The lists, the history, the reel and
    [havePreviousWinner] are as they were, and [onSpinEnd] is not called. *)
Theorem spin_rejects_without_player_element (w : World) :
  nameList (this w) ≠ [] → current_player_text w = None →
  ∃ w', spin w = (None, w')
        ∧ this w' = with_currentPlayer (currentPlayer (this w')) (this w)
        ∧ new_events w w' = invoke <$> option_list (onSpinStart (this w))
        ∧ drawn w' = drawn w + length (nameList (this w)) + 1.
Proof.
  intros Hne Htext.
  destruct (spin_rejects_run w Hne Htext) as (w' & Hspin & Hs & He & _ & Hd).
  exists w'. split; [done |]. split; [by rewrite Hs |]. split; [| done].
  unfold new_events. by rewrite He, drop_app_length.
Qed.

Lemma spin_rejects_without_player_element_witness :
  ∃ w',
    spin (without_player_element app_world_A_X) = (None, w')
    ∧ nameList (this w') = ["A"] ∧ drawHistory (this w') = []
    ∧ invoked (new_events (without_player_element app_world_A_X) w')
      = [onSpinStart_app].
Proof.
  destruct (spin_rejects_without_player_element
              (without_player_element app_world_A_X))
    as (w' & Hspin & Hs & He & _);
    [vm_compute; discriminate | vm_compute; reflexivity |].
  exists w'. split; [exact Hspin |]. rewrite Hs, He. by repeat split.
Defined.

Lemma spin_gives_up_run w :
  ¬ (nameList (this w) = [] ∧ luckyMoneyList (this w) = []) →
  (nameList (this w) ≠ [] → is_Some (current_player_text w)) →
  reelContainer (this w) = None ∨ reelAnimation (this w) = None →
  spin w = (Some false, after_name_reveal w)
  ∧ run_to w (after_name_reveal w)
      (with_currentPlayer (declared_name w) (this w))
      ((invoke <$> option_list (onSpinStart (this w))) ++ name_reveal_events w)
      (7 * length (nameList (this w))).
Proof.
  intros Hsome Htext Hmiss. unfold spin, spin_before_await.
  rewrite bind_run, get_this_bind.
  destruct ((length _ =? 0) && _) eqn:Hboth.
  { by apply both_empty_iff in Hboth. }
  destruct (name_phase_run w Htext) as (b & Hrun & Hto).
  assert (Hassoc :
    (notify (onSpinStart (this w)) ≫= (λ _, spinName ≫= λ _, spin_reel)) w
    = ((notify (onSpinStart (this w)) ;; spinName) ≫= λ _, spin_reel) w).
  { rewrite !bind_run. destruct (notify _ w) as [[[] |] w0]; [| done].
    by rewrite bind_run. }
  rewrite Hassoc, (bind_Some _ _ _ _ _ Hrun).
  pose proof Hto as (Hs & _).
  rewrite spin_reel_unavailable by (by rewrite Hs).
  split; [done |]. by destruct (nameList (this w)).
Qed.

(** X2. With something to draw from and no reel (or no animation handle),
    [spin()] resolves [false] after the fact: [onSpinStart] has been called
    and the name reveal has run in full (of the engine only [currentPlayer]
    may have changed, the timers have been waited for), but no prize is drawn,
    nothing is removed or written to the history, no animation is played,
    [havePreviousWinner] is untouched and [onSpinEnd] is never called. *)
Theorem spin_gives_up_without_reel (w : World) :
  ¬ (nameList (this w) = [] ∧ luckyMoneyList (this w) = []) →
  (nameList (this w) ≠ [] → is_Some (current_player_text w)) →
  reelContainer (this w) = None ∨ reelAnimation (this w) = None →
  ∃ w', spin w = (Some false, w')
        ∧ this w' = with_currentPlayer (currentPlayer (this w')) (this w)
        ∧ new_events w w'
          = (invoke <$> option_list (onSpinStart (this w))) ++ name_reveal_events w
        ∧ invoked (new_events w w') = option_list (onSpinStart (this w))
        ∧ drawn w' = drawn w + 7 * length (nameList (this w)).
Proof.
  intros Hsome Htext Hmiss.
  destruct (spin_gives_up_run w Hsome Htext Hmiss) as (Hspin & Hto).
  exists (after_name_reveal w). split; [done |].
  rewrite (run_to_new_events _ _ _ _ _ Hto).
  destruct Hto as (Hs & _ & _ & Hd & _).
  split; [by rewrite Hs |]. split; [done |]. split; [| done].
  by rewrite invoked_app, invoked_notification, invoked_name_reveal_events,
    app_nil_r.
Qed.

Lemma spin_gives_up_without_reel_witness :
  ∃ w',
    spin (without_reel app_world_A_X) = (Some false, w')
    ∧ nameList (this w') = ["A"] ∧ luckyMoneyList (this w') = ["X"]
    ∧ drawHistory (this w') = [] ∧ havePreviousWinner (this w') = false
    ∧ invoked (new_events (without_reel app_world_A_X) w') = [onSpinStart_app].
Proof.
  destruct (spin_gives_up_without_reel (without_reel app_world_A_X))
    as (w' & Hspin & Hs & _ & Hinv & _).
  - intros [Hn _]. discriminate Hn.
  - intros _. by eexists.
  - by left.
  - exists w'. split; [exact Hspin |]. rewrite Hs, Hinv. by repeat split.
Defined.

(** X3. How [spin()] settles is decided by the state it starts in: it
    resolves [false] when both lists are empty; it rejects when there are
    names and the document has no [#current-player] element; otherwise it
    resolves [false] when the reel or its animation is missing, and [true]
    when both are there. *)
Theorem spin_settles_as_the_state_tells (w : World) :
  (nameList (this w) = [] ∧ luckyMoneyList (this w) = [] →
   (spin w).1 = Some false)
  ∧ (nameList (this w) ≠ [] ∧ current_player_text w = None → (spin w).1 = None)
  ∧ (¬ (nameList (this w) = [] ∧ luckyMoneyList (this w) = []) →
     (nameList (this w) ≠ [] → is_Some (current_player_text w)) →
     (reelContainer (this w) = None ∨ reelAnimation (this w) = None →
      (spin w).1 = Some false)
     ∧ (is_Some (reelContainer (this w)) ∧ is_Some (reelAnimation (this w)) →
        (spin w).1 = Some true)).
Proof.
  split; [| split].
  - intros [Hn Hl]. by rewrite spin_both_empty.
  - intros [Hne Hnone]. by destruct (spin_rejects_run w Hne Hnone) as (w' & -> & _).
  - intros Hsome Htext. split.
    + intros Hmiss. by destruct (spin_gives_up_run w Hsome Htext Hmiss) as (-> & _).
    + intros [Hreel Hanim].
      by destruct (spin_run w) as (_ & w' & _ & _ & -> & _).
Qed.

Lemma spin_settles_as_the_state_tells_witness :
  (spin (app_world (λ _, zero))).1 = Some false
  ∧ (spin (without_player_element app_world_A_X)).1 = None
  ∧ (spin (without_reel app_world_A_X)).1 = Some false
  ∧ (spin app_world_A_X).1 = Some true.
Proof.
  split; [| split; [| split]].
  - destruct (spin_settles_as_the_state_tells (app_world (λ _, zero)))
      as (Hempty & _).
    apply Hempty. split; vm_compute; reflexivity.
  - destruct (spin_settles_as_the_state_tells
                (without_player_element app_world_A_X)) as (_ & Hrejects & _).
    apply Hrejects. split; [vm_compute; discriminate | vm_compute; reflexivity].
  - destruct (spin_settles_as_the_state_tells (without_reel app_world_A_X))
      as (_ & _ & Hrest).
    destruct Hrest as [Hfalse _].
    + vm_compute. intros [Hn _]. discriminate Hn.
    + intros _. vm_compute. eexists. reflexivity.
    + apply Hfalse. left. vm_compute. reflexivity.
  - destruct (spin_settles_as_the_state_tells app_world_A_X) as (_ & _ & Hrest).
    destruct Hrest as [_ Htrue].
    + vm_compute. intros [Hn _]. discriminate Hn.
    + intros _. vm_compute. eexists. reflexivity.
    + apply Htrue. split; vm_compute; eexists; reflexivity.
Defined.

(** ** What a draw never changes *)

Lemma at_await_frame w :
  maxReelItems (at_await w) = maxReelItems (this w)
  ∧ shouldRemoveWinner (at_await w) = shouldRemoveWinner (this w)
  ∧ reelAnimation (at_await w) = reelAnimation (this w)
  ∧ onSpinStart (at_await w) = onSpinStart (this w)
  ∧ onSpinEnd (at_await w) = onSpinEnd (this w)
  ∧ onNameListChanged (at_await w) = onNameListChanged (this w)
  ∧ havePreviousWinner (at_await w) = havePreviousWinner (this w)
  ∧ currentPlayer (at_await w) = currentPlayer (this w).
Proof.
  unfold at_await. destruct (shouldRemoveWinner (this w)) eqn:Hremove; [| done].
  destruct (removal_frame (playerLuckyMoney w)
    (with_reelContainer
       ((λ children, children ++ (to_string <$> randomLuckyMoneys w))
          <$> reelContainer (this w)) (this w)))
    as (-> & -> & _ & -> & -> & -> & -> & -> & ->).
  done.
Qed.

Lemma splice1_sublist {A} (start : Z) (l : list A) :
  splice1 start l `sublist_of` l ∧ length l ≤ length (splice1 start l) + 1.
Proof.
  unfold splice1. split; [apply sublist_delete |].
  set (i := Z.to_nat _).
  destruct (decide (i < length l)) as [Hi | Hi].
  - rewrite length_delete by (by apply lookup_lt_is_Some_2). lia.
  - rewrite delete_take_drop, take_ge, drop_ge, app_nil_r by lia. lia.
Qed.

Lemma at_await_lists w :
  (nameList (at_await w) `sublist_of` nameList (this w)
   ∧ length (nameList (this w)) ≤ length (nameList (at_await w)) + 1)
  ∧ (luckyMoneyList (at_await w) `sublist_of` luckyMoneyList (this w)
     ∧ length (luckyMoneyList (this w)) ≤ length (luckyMoneyList (at_await w)) + 1)
  ∧ drawHistory (this w) `prefix_of` drawHistory (at_await w).
Proof.
  destruct (shouldRemoveWinner (this w)) eqn:Hremove.
  - destruct (at_await_removal w Hremove) as (-> & -> & ->).
    split; [apply splice1_sublist |]. split; [apply splice1_sublist |].
    by eexists.
  - destruct (at_await_no_removal w Hremove) as (-> & -> & ->).
    repeat split; try done; lia.
Qed.

(** A draw that resolves [true], against the state it started from. *)
Lemma spin_true_frame w w' :
  spin w = (Some true, w') →
  (maxReelItems (this w') = maxReelItems (this w)
   ∧ shouldRemoveWinner (this w') = shouldRemoveWinner (this w)
   ∧ reelAnimation (this w') = reelAnimation (this w)
   ∧ onSpinStart (this w') = onSpinStart (this w)
   ∧ onSpinEnd (this w') = onSpinEnd (this w)
   ∧ onNameListChanged (this w') = onNameListChanged (this w))
  ∧ drawHistory (this w) `prefix_of` drawHistory (this w')
  ∧ events w `prefix_of` events w'
  ∧ (nameList (this w') `sublist_of` nameList (this w)
     ∧ length (nameList (this w)) ≤ length (nameList (this w')) + 1)
  ∧ (luckyMoneyList (this w') `sublist_of` luckyMoneyList (this w)
     ∧ length (luckyMoneyList (this w)) ≤ length (luckyMoneyList (this w')) + 1)
  ∧ (is_Some (reelContainer (this w')) ↔ is_Some (reelContainer (this w)))
  ∧ random w' = random w ∧ drawn w ≤ drawn w'.
Proof.
  intros Hspin.
  pose proof (spin_true_inv _ _ Hspin) as Hcan.
  destruct (spin_summary w w' Hspin)
    as (_ & Hsn & _ & _ & _ & Hs & He & Hr & Hd).
  rewrite Hs.
  cbn [finished with_havePreviousWinner with_reelContainer maxReelItems
       shouldRemoveWinner reelAnimation onSpinStart onSpinEnd onNameListChanged
       drawHistory nameList luckyMoneyList reelContainer].
  destruct (at_await_frame (after_name_reveal w))
    as (-> & -> & -> & -> & -> & -> & _).
  destruct (at_await_lists (after_name_reveal w)) as (Hnl & Hll & Hh).
  rewrite at_await_reelContainer.
  rewrite Hsn in Hnl, Hll, Hh |- *.
  cbn [with_currentPlayer maxReelItems shouldRemoveWinner reelAnimation
       onSpinStart onSpinEnd onNameListChanged drawHistory nameList
       luckyMoneyList reelContainer] in Hnl, Hll, Hh |- *.
  assert (Hev : events w `prefix_of` events w').
  { destruct (spin_run w Hcan)
      as (w2 & w'' & _ & (_ & Ha & _) & Hspin' & (_ & Hb & _)).
    rewrite Hspin in Hspin'. injection Hspin' as <-.
    rewrite Hb, Ha, <- app_assoc. by eexists. }
  split; [done |]. split; [done |]. split; [done |]. split; [done |].
  split; [done |]. split; [by rewrite !fmap_is_Some |]. split; [done | lia].
Qed.

(** X4. However [spin()] settles, it leaves [maxReelItems], the removal
    flag, the animation handle and the three callbacks as they were; it only
    appends to the history and to the trace; each of the two lists loses at
    most one element and gains none; the reel stays found or not found; and
    the random stream is only read further. *)
Theorem spin_frame (w : World) :
  let w' := after spin w in
  (maxReelItems (this w') = maxReelItems (this w)
   ∧ shouldRemoveWinner (this w') = shouldRemoveWinner (this w)
   ∧ reelAnimation (this w') = reelAnimation (this w)
   ∧ onSpinStart (this w') = onSpinStart (this w)
   ∧ onSpinEnd (this w') = onSpinEnd (this w)
   ∧ onNameListChanged (this w') = onNameListChanged (this w))
  ∧ drawHistory (this w) `prefix_of` drawHistory (this w')
  ∧ events w `prefix_of` events w'
  ∧ (nameList (this w') `sublist_of` nameList (this w)
     ∧ length (nameList (this w)) ≤ length (nameList (this w')) + 1)
  ∧ (luckyMoneyList (this w') `sublist_of` luckyMoneyList (this w)
     ∧ length (luckyMoneyList (this w)) ≤ length (luckyMoneyList (this w')) + 1)
  ∧ (is_Some (reelContainer (this w')) ↔ is_Some (reelContainer (this w)))
  ∧ random w' = random w ∧ drawn w ≤ drawn w'.
Proof.
  intros w'. subst w'. unfold after.
  destruct (decide (nameList (this w) = [] ∧ luckyMoneyList (this w) = []))
    as [[Hn Hl] | Hsome].
  { rewrite spin_both_empty by done. cbn.
    repeat split; try done; try lia. by eexists. }
  destruct (decide (nameList (this w) ≠ [] ∧ current_player_text w = None))
    as [[Hne Hnone] | Hok].
  { destruct (spin_rejects_run w Hne Hnone) as (w' & Hspin & Hs & He & Hr & Hd).
    rewrite Hspin. cbn [snd]. rewrite Hs, He. cbn.
    repeat split; try done; try lia. by eexists. }
  assert (Htext : nameList (this w) ≠ [] → is_Some (current_player_text w)).
  { intros Hne. destruct (current_player_text w); [by eexists | tauto]. }
  destruct (decide (is_Some (reelContainer (this w))
                    ∧ is_Some (reelAnimation (this w)))) as [[Hreel Hanim] | Hmiss].
  - assert (Hcan : can_spin w) by done.
    destruct (spin_run w Hcan) as (w1 & w' & _ & _ & Hspin & _).
    rewrite Hspin. exact (spin_true_frame w w' Hspin).
  - assert (Hnone : reelContainer (this w) = None ∨ reelAnimation (this w) = None).
    { destruct (reelContainer (this w)); [| by left].
      destruct (reelAnimation (this w)); [| by right].
      exfalso. apply Hmiss. by split; eexists. }
    destruct (spin_gives_up_run w Hsome Htext Hnone)
      as (Hspin & Hs & He & Hr & Hd & _).
    rewrite Hspin. cbn [snd]. rewrite Hs, He. cbn.
    repeat split; try done; try lia. by eexists.
Qed.

(** ** Draws one after the other *)

Lemma spin_true_events w w' :
  spin w = (Some true, w') → events w' = events w ++ new_events w w'.
Proof.
  intros Hspin. pose proof (spin_true_inv _ _ Hspin) as Hcan.
  destruct (spin_run w Hcan)
    as (w1 & w'' & _ & (_ & Ha & _) & Hspin' & (_ & Hb & _)).
  rewrite Hspin in Hspin'. injection Hspin' as <-.
  unfold new_events. rewrite Hb, Ha, <- app_assoc. by rewrite drop_app_length.
Qed.

Lemma new_events_trans w w1 w2 t1 t2 :
  events w1 = events w ++ t1 → events w2 = events w1 ++ t2 →
  events w2 = events w ++ (t1 ++ t2) ∧ new_events w w2 = t1 ++ t2.
Proof.
  intros H1 H2. unfold new_events.
  rewrite H2, H1, <- app_assoc. by rewrite drop_app_length.
Qed.

(** What a draw that went through leaves for the next one. *)
Lemma spin_keeps_page w w' :
  spin w = (Some true, w') →
  is_Some (current_player_text w) →
  is_Some (reelContainer (this w')) ∧ is_Some (reelAnimation (this w'))
  ∧ is_Some (current_player_text w')
  ∧ maxReelItems (this w') = maxReelItems (this w)
  ∧ shouldRemoveWinner (this w') = shouldRemoveWinner (this w)
  ∧ onSpinStart (this w') = onSpinStart (this w)
  ∧ onSpinEnd (this w') = onSpinEnd (this w)
  ∧ havePreviousWinner (this w') = true.
Proof.
  intros Hspin Htext.
  pose proof (spin_true_inv _ _ Hspin) as Hcan.
  destruct (spin_true_frame w w' Hspin) as ((Hm & Hr & Ha & Hs & He & _) & _ & _ & _ & _ & Hreel & _).
  destruct Hcan as (_ & Hreel0 & Hanim0 & _).
  destruct (spin_run w (spin_true_inv _ _ Hspin))
    as (w1 & w'' & _ & Hto1 & Hspin' & Hto2).
  rewrite Hspin in Hspin'. injection Hspin' as <-.
  destruct (spin_summary w w' Hspin) as (_ & _ & _ & _ & _ & Hfin & _).
  repeat split; try done.
  - by apply Hreel.
  - by rewrite Ha.
  - destruct Hto1 as (_ & _ & _ & _ & Ht1). destruct Hto2 as (_ & _ & _ & _ & Ht2).
    auto.
  - by rewrite Hfin.
Qed.

(** X5. With removal switched off, any number of draws in a row on a page
    that has what a draw needs all resolve [true]; the two lists and the
    history stay as they were, and the callbacks invoked are [onSpinStart]
    then [onSpinEnd], once per draw. *)
Theorem draws_without_removal (n : nat) : ∀ w : World,
  can_spin w → is_Some (current_player_text w) →
  shouldRemoveWinner (this w) = false →
  ∃ w', draws n w = (Some (replicate n true), w')
        ∧ nameList (this w') = nameList (this w)
        ∧ luckyMoneyList (this w') = luckyMoneyList (this w)
        ∧ drawHistory (this w') = drawHistory (this w)
        ∧ (∃ trace, events w' = events w ++ trace
                    ∧ invoked trace
                      = mjoin (replicate n (option_list (onSpinStart (this w))
                                            ++ option_list (onSpinEnd (this w))))).
Proof.
  induction n as [| n IH]; intros w Hcan Htext Hremove.
  - exists w. split; [done |]. repeat split; try done.
    exists []. by rewrite app_nil_r.
  - destruct (spin_run w Hcan) as (_ & w1 & _ & _ & Hspin & _).
    destruct (spin_keeps_page w w1 Hspin Htext)
      as (Hreel & Hanim & Htext1 & Hm & Hr & Hs & He & _).
    destruct (spin_summary w w1 Hspin) as (_ & Hsn & _ & _ & _ & Hfin & _).
    assert (Hlists : nameList (this w1) = nameList (this w)
                     ∧ luckyMoneyList (this w1) = luckyMoneyList (this w)
                     ∧ drawHistory (this w1) = drawHistory (this w)).
    { rewrite Hfin.
      cbn [finished with_havePreviousWinner with_reelContainer nameList
           luckyMoneyList drawHistory].
      destruct (at_await_no_removal (after_name_reveal w)) as (-> & -> & ->).
      { by rewrite Hsn. }
      by rewrite Hsn. }
    destruct Hlists as (Hn & Hl & Hh).
    destruct (IH w1) as (w' & Hdraws & Hn' & Hl' & Hh' & (trace & Hev & Hinv)).
    { destruct Hcan as (Hsome & _). unfold can_spin. by rewrite Hn, Hl. }
    { done. }
    { by rewrite Hr. }
    exists w'. cbn [draws].
    rewrite (bind_Some _ _ _ _ _ Hspin), (bind_Some _ _ _ _ _ Hdraws).
    split; [done |]. rewrite Hn', Hl', Hh', Hn, Hl, Hh.
    repeat split; try done.
    exists (new_events w w1 ++ trace).
    destruct (new_events_trans w w1 w' _ _ (spin_true_events _ _ Hspin) Hev)
      as [Hev' _].
    split; [done |].
    rewrite invoked_app, (spin_invoked w w1 Hspin), Hinv, Hs, He. done.
Qed.

Lemma draws_without_removal_witness :
  ∃ w',
    draws 3 (after (set_shouldRemoveWinnerFromNameList false) app_world_A_X)
    = (Some [true; true; true], w')
    ∧ nameList (this w') = ["A"] ∧ luckyMoneyList (this w') = ["X"]
    ∧ drawHistory (this w') = [].
Proof.
  destruct (draws_without_removal 3
              (after (set_shouldRemoveWinnerFromNameList false) app_world_A_X))
    as (w' & Hdraws & Hn & Hl & Hh & _).
  - unfold can_spin. cbn. repeat split; try (by eexists). by intros [? _].
  - by eexists.
  - reflexivity.
  - exists w'. rewrite Hn, Hl, Hh. by repeat split.
Defined.

(** One draw with removal, on a reel of two items or more: each list that
    had an element has one less. *)
Lemma spin_with_removal_step w :
  can_spin w → is_Some (current_player_text w) →
  shouldRemoveWinner (this w) = true → (2 ≤ maxReelItems (this w))%Z →
  ∃ w' entry,
    spin w = (Some true, w')
    ∧ length (nameList (this w')) = length (nameList (this w)) - 1
    ∧ length (luckyMoneyList (this w')) = length (luckyMoneyList (this w)) - 1
    ∧ drawHistory (this w')
      = drawHistory (this w) ++ [entry]
        ++ (if (length (nameList (this w')) =? 0)
               && (length (luckyMoneyList (this w')) =? 0)
            then ["-------END-------"] else []).
Proof.
  intros Hcan Htext Hremove Hmax.
  destruct (spin_run w Hcan) as (_ & w' & _ & _ & Hspin & _).
  destruct (spin_removal_lists w w' Hspin Hremove) as (_ & Hn & Hl & Hh).
  destruct (spin_summary w w' Hspin) as (_ & Hsn & _ & _ & _ & _ & _).
  assert (Hroom : (1 ≤ maxReelItems (this w) - Number (havePreviousWinner (this w)))%Z).
  { destruct (havePreviousWinner (this w)); simpl; lia. }
  exists w'. eexists. split; [done |]. split; [| split; [| exact Hh]].
  - rewrite Hn. destruct (decide (nameList (this w) = [])) as [Hnil | Hne].
    + by rewrite Hnil.
    + destruct (randomNames_last w Hne Hroom) as (name & Hlast & Hin).
      assert (Hdecl : declared_name w = Some name).
      { unfold declared_name. by rewrite (length_zero_false _ Hne). }
      rewrite Hdecl.
      destruct (splice1_findIndex_elem name _ Hin) as (l1 & l2 & Hsplit & _ & ->).
      rewrite Hsplit, !length_app. simpl. lia.
  - rewrite Hl. destruct (decide (luckyMoneyList (this w) = [])) as [Hnil | Hne].
    + by rewrite Hnil.
    + destruct (randomLuckyMoneys_last (after_name_reveal w)) as (prize & -> & Hin).
      { by rewrite Hsn. }
      { by rewrite Hsn. }
      rewrite Hsn in Hin. cbn [luckyMoneyList with_currentPlayer] in Hin.
      destruct (splice1_findIndex_elem prize _ Hin) as (l1 & l2 & Hsplit & _ & ->).
      rewrite Hsplit, !length_app. simpl. lia.
Qed.

(** X6. With removal switched on and a reel of two items or more, as many
    draws in a row as the longer of the two lists has elements all resolve
    [true] and leave both lists empty; the history has grown by one entry per
    draw and then the end-of-round line; and the next [spin()] resolves
    [false]. *)
Theorem round_of_draws (n : nat) : ∀ w : World,
  is_Some (reelContainer (this w)) → is_Some (reelAnimation (this w)) →
  is_Some (current_player_text w) →
  shouldRemoveWinner (this w) = true → (2 ≤ maxReelItems (this w))%Z →
  0 < n →
  length (nameList (this w)) `max` length (luckyMoneyList (this w)) = n →
  ∃ w' entries,
    draws n w = (Some (replicate n true), w')
    ∧ nameList (this w') = [] ∧ luckyMoneyList (this w') = []
    ∧ length entries = n
    ∧ drawHistory (this w') = drawHistory (this w) ++ entries ++ ["-------END-------"]
    ∧ (spin w').1 = Some false.
Proof.
  induction n as [| n IH]; intros w Hreel Hanim Htext Hremove Hmax Hpos Hlen; [lia |].
  assert (Hcan : can_spin w).
  { unfold can_spin. repeat split; try done.
    intros [Hn Hl]. rewrite Hn, Hl in Hlen. simpl in Hlen. lia. }
  destruct (spin_with_removal_step w Hcan Htext Hremove Hmax)
    as (w1 & entry & Hspin & Hn1 & Hl1 & Hh1).
  destruct (spin_keeps_page w w1 Hspin Htext)
    as (Hreel1 & Hanim1 & Htext1 & Hm1 & Hr1 & _).
  cbn [draws]. rewrite (bind_Some _ _ _ _ _ Hspin).
  destruct n as [| n].
  - assert (Hn0 : nameList (this w1) = []) by (apply length_zero_iff_nil; lia).
    assert (Hl0 : luckyMoneyList (this w1) = []) by (apply length_zero_iff_nil; lia).
    rewrite Hn0, Hl0 in Hh1. cbn in Hh1.
    exists w1, [entry]. cbn. repeat split; try done.
    by rewrite spin_both_empty.
  - destruct (IH w1 Hreel1 Hanim1 Htext1 ltac:(by rewrite Hr1)
                ltac:(by rewrite Hm1) ltac:(lia) ltac:(lia))
      as (w' & entries & Hdraws & Hn' & Hl' & Hlen' & Hh' & Hnext).
    rewrite (bind_Some _ _ _ _ _ Hdraws).
    exists w', (entry :: entries). cbn. repeat split; try done; [lia |].
    rewrite Hh', Hh1.
    assert (Hnot : (length (nameList (this w1)) =? 0)
                   && (length (luckyMoneyList (this w1)) =? 0) = false).
    { apply not_true_iff_false. rewrite both_empty_iff. intros [Ha Hb].
      rewrite Ha, Hb in *. simpl in *. lia. }
    rewrite Hnot. by rewrite <- !app_assoc.
Qed.

Lemma round_of_draws_witness :
  ∃ w' entries,
    draws 3 (after (set_names ["A"; "B"; "C"];; set_luckyMoneys ["X"; "Y"])
               (app_world (λ _, zero)))
    = (Some [true; true; true], w')
    ∧ nameList (this w') = [] ∧ luckyMoneyList (this w') = []
    ∧ length entries = 3
    ∧ drawHistory (this w')
      = drawHistory
          (this (after (set_names ["A"; "B"; "C"];; set_luckyMoneys ["X"; "Y"])
                   (app_world (λ _, zero))))
        ++ entries ++ ["-------END-------"]
    ∧ (spin w').1 = Some false.
Proof.
  apply (round_of_draws 3
           (after (set_names ["A"; "B"; "C"];; set_luckyMoneys ["X"; "Y"])
              (app_world (λ _, zero)))).
  - by eexists.
  - by eexists.
  - by eexists.
  - reflexivity.
  - vm_compute. discriminate.
  - lia.
  - reflexivity.
Defined.

(** ** The edges of a draw *)

Lemma spin_reel_text w :
  current_player_text (after spin_reel w) = current_player_text w.
Proof.
  unfold after, spin_reel. rewrite get_this_bind.
  destruct (reelContainer (this w)) as [children |]; [| done].
  destruct (reelAnimation (this w)) as [animation |]; [| done].
  destruct (call_shuffleLuckyMoneys_run w) as (shuffled & Hrun & _).
  rewrite (bind_Some _ _ _ _ _ Hrun).
  rewrite get_this_bind, modify_this_bind, emit_bind, get_this_bind, emit_bind.
  destruct (shouldRemoveWinner (this w)); reflexivity.
Qed.

Lemma spin_after_await_text w :
  current_player_text (after spin_after_await w) = current_player_text w.
Proof.
  unfold after, spin_after_await.
  rewrite emit_bind, modify_this_bind, modify_this_bind, get_this_bind.
  match goal with |- context [(notify ?c ≫= _) ?w1] =>
    destruct (notify_run c w1) as (w' & Hnotify & _ & Htext)
  end.
  by rewrite (bind_Some _ _ _ _ _ Hnotify).
Qed.

(** X7. With no names and some prizes, on a page with its reel, [spin()]
    resolves [true] whether or not the document has a [#current-player]
    element: the name reveal only reports its error, [currentPlayer] keeps the
    value it had and the element its text, the random numbers drawn are those
    of the prize shuffle, and with removal and room on the reel for one new
    item the history entry pairs the name [currentPlayer] already held with a
    prize of the list. *)
Theorem spin_without_names (w : World) :
  nameList (this w) = [] → luckyMoneyList (this w) ≠ [] →
  is_Some (reelContainer (this w)) → is_Some (reelAnimation (this w)) →
  ∃ w', spin w = (Some true, w')
        ∧ currentPlayer (this w') = currentPlayer (this w)
        ∧ nameList (this w') = []
        ∧ current_player_text w' = current_player_text w
        ∧ console_error "Name List is empty. Cannot start spinning."
          ∈ new_events w w'
        ∧ drawn w' = drawn w + length (luckyMoneyList (this w))
        ∧ (shouldRemoveWinner (this w) = true →
           (1 ≤ maxReelItems (this w) - Number (havePreviousWinner (this w)))%Z →
           ∃ prize,
             prize ∈ luckyMoneyList (this w)
             ∧ drawHistory (this w')
               = drawHistory (this w)
                 ++ [to_string (currentPlayer (this w)) +:+ " - " +:+ prize]
                 ++ (if length (luckyMoneyList (this w')) =? 0
                     then ["-------END-------"] else [])).
Proof.
  intros Hnil Hne Hreel Hanim.
  assert (Hcan : can_spin w).
  { unfold can_spin. repeat split; try done. by intros [_ ?]. }
  destruct (spin_run w Hcan) as (w1 & w' & Hbefore & _ & Hspin & _).
  destruct (spin_summary w w' Hspin)
    as (_ & Hsn & _ & _ & _ & Hs & He & _ & Hd).
  assert (Hdecl : declared_name w = currentPlayer (this w)).
  { unfold declared_name. by rewrite Hnil. }
  assert (Hnames : nameList (this w') = []).
  { destruct (spin_true_frame w w' Hspin) as (_ & _ & _ & (Hsub & _) & _).
    rewrite Hnil in Hsub. by apply sublist_nil_r in Hsub. }
  exists w'. split; [done |]. split; [| split; [done |]; split; [| split; [| split]]].
  - rewrite Hs.
    cbn [finished with_havePreviousWinner with_reelContainer currentPlayer].
    by rewrite at_await_currentPlayer, Hsn, Hdecl.
  - assert (Hw' : w' = after spin_after_await (add_events [animation_onfinish] w1)).
    { unfold spin in Hspin. rewrite (bind_Some _ _ _ _ _ Hbefore) in Hspin.
      rewrite emit_bind in Hspin. unfold after. by rewrite Hspin. }
    assert (Hw1 : w1 = after spin_reel (after_name_reveal w)).
    { unfold spin_before_await in Hbefore. rewrite get_this_bind in Hbefore.
      destruct ((length _ =? 0) && _) eqn:Hboth.
      { apply both_empty_iff in Hboth as [_ ?]. done. }
      destruct (name_phase_run w) as (b & Hrun & _).
      { by destruct Hcan as (_ & _ & _ & ?). }
      assert (Hassoc :
        (notify (onSpinStart (this w)) ≫= (λ _, spinName ≫= λ _, spin_reel)) w
        = ((notify (onSpinStart (this w)) ;; spinName) ≫= λ _, spin_reel) w).
      { rewrite !bind_run. destruct (notify _ w) as [[[] |] w0]; [| done].
        by rewrite bind_run. }
      rewrite Hassoc, (bind_Some _ _ _ _ _ Hrun) in Hbefore.
      unfold after. by rewrite Hbefore. }
    rewrite Hw', spin_after_await_text. cbn [add_events current_player_text].
    rewrite Hw1, spin_reel_text. unfold after_name_reveal.
    destruct (notify_run (onSpinStart (this w)) w)
      as (w0 & Hnotify & (Hs0 & _) & Htext0).
    rewrite (bind_Some _ _ _ _ _ Hnotify), spinName_empty by (by rewrite Hs0).
    done.
  - rewrite He. apply elem_of_app. right. apply elem_of_app. left.
    unfold name_reveal_events. rewrite Hnil. apply list_elem_of_here.
  - rewrite Hd, Hnil. simpl. lia.
  - intros Hremove Hroom.
    destruct (randomLuckyMoneys_last (after_name_reveal w)) as (prize & Hprize & Hin).
    { by rewrite Hsn. }
    { by rewrite Hsn. }
    rewrite Hsn in Hin. cbn [with_currentPlayer luckyMoneyList] in Hin.
    exists prize. split; [done |].
    destruct (spin_removal_lists w w' Hspin Hremove) as (_ & _ & _ & ->).
    by rewrite Hdecl, Hnames, Hprize.
Qed.

Lemma spin_without_names_witness :
  ∃ w',
    spin (without_player_element
            (after (set_luckyMoneys ["X"]) (app_world (λ _, zero))))
    = (Some true, w')
    ∧ currentPlayer (this w') = Some ""
    ∧ current_player_text w' = None
    ∧ drawHistory (this w') = [" - X"; "-------END-------"].
Proof.
  destruct (spin_without_names
              (without_player_element
                 (after (set_luckyMoneys ["X"]) (app_world (λ _, zero)))))
    as (w' & Hspin & Hcp & _ & Htext & _ & _ & Hh).
  - vm_compute. reflexivity.
  - vm_compute. discriminate.
  - vm_compute. eexists. reflexivity.
  - vm_compute. eexists. reflexivity.
  - exists w'. split; [exact Hspin |]. split; [exact Hcp |]. split; [exact Htext |].
    assert (Hw' : w' = after spin
                         (without_player_element
                            (after (set_luckyMoneys ["X"]) (app_world (λ _, zero))))).
    { unfold after at 1. by rewrite Hspin. }
    rewrite Hw'. vm_compute. reflexivity.
Defined.

(** ** The reel *)

Lemma trim_reel_snoc (children : list string) (child : string) :
  trim_reel (children ++ [child]) = [child].
Proof.
  unfold trim_reel, slice0. rewrite length_app. simpl.
  destruct (Z.ltb_spec (Z.of_nat (length children + 1) - 1) 0); [lia |].
  rewrite length_take, length_app. simpl.
  replace (Z.to_nat _ `min` (length children + 1)) with (length children) by lia.
  by rewrite drop_app_length.
Qed.

Lemma randomLuckyMoneys_length w :
  luckyMoneyList (this w) ≠ [] → (1 ≤ maxReelItems (this w))%Z →
  Z.of_nat (length (randomLuckyMoneys w))
  = (maxReelItems (this w) - Number (havePreviousWinner (this w)))%Z.
Proof.
  intros Hne Hmax. unfold randomLuckyMoneys.
  destruct (shuffleLuckyMoneys_spec (random w) (luckyMoneyList (this w)) (drawn w))
    as (shuffled & -> & Hperm).
  apply pad_and_slice_length; [| done].
  by rewrite (shuffled_nil _ _ Hperm).
Qed.

(** X8. Take a reel that holds one item when a previous winner is on
    display and none otherwise (as [set names] leaves it), some prizes and
    [maxReelItems >= 1].  In a draw that resolves [true] the reel holds
    exactly [maxReelItems] items while the animation is awaited, and exactly
    one afterwards, the last of them; when there was room for a new item that
    one is the last element of [randomLuckyMoneys], a prize of the list. *)
Theorem reel_holds_maxReelItems (w w' : World) (children : list string) :
  spin w = (Some true, w') →
  reelContainer (this w) = Some children →
  Z.of_nat (length children) = Number (havePreviousWinner (this w)) →
  luckyMoneyList (this w) ≠ [] → (1 ≤ maxReelItems (this w))%Z →
  ∃ w1 during shown,
    spin_before_await w = (Some awaits_animation, w1)
    ∧ reelContainer (this w1) = Some during
    ∧ Z.of_nat (length during) = maxReelItems (this w)
    ∧ last during = Some shown
    ∧ reelContainer (this w') = Some [shown]
    ∧ Z.of_nat (length [shown]) = Number (havePreviousWinner (this w'))
    ∧ ((1 ≤ maxReelItems (this w) - Number (havePreviousWinner (this w)))%Z →
       last (randomLuckyMoneys (after_name_reveal w)) = Some (Some shown)
       ∧ shown ∈ luckyMoneyList (this w)).
Proof.
  intros Hspin Hreel Hinv Hne Hmax.
  destruct (spin_summary w w' Hspin)
    as (_ & Hsn & _ & _ & (w1 & Hbefore & Hs1 & _) & Hs & _).
  assert (Hne' : luckyMoneyList (this (after_name_reveal w)) ≠ []) by (by rewrite Hsn).
  assert (Hmax' : (1 ≤ maxReelItems (this (after_name_reveal w)))%Z) by (by rewrite Hsn).
  pose proof (randomLuckyMoneys_length _ Hne' Hmax') as Hlen.
  rewrite Hsn in Hlen. cbn [with_currentPlayer maxReelItems havePreviousWinner] in Hlen.
  set (items := randomLuckyMoneys (after_name_reveal w)) in *.
  set (during := children ++ (to_string <$> items)).
  assert (Hduring : reelContainer (at_await (after_name_reveal w)) = Some during).
  { rewrite at_await_reelContainer, Hsn. cbn [with_currentPlayer reelContainer].
    by rewrite Hreel. }
  assert (Hnonempty : during ≠ []).
  { intros Hnil. apply (f_equal length) in Hnil. unfold during in Hnil.
    rewrite length_app, length_fmap in Hnil. simpl in Hnil.
    destruct (havePreviousWinner (this w)); simpl in *; lia. }
  destruct (exists_last Hnonempty) as (before & shown & Hsplit).
  exists w1, during, shown. split; [done |]. split; [by rewrite Hs1 |].
  split; [unfold during; rewrite length_app, length_fmap; lia |].
  split; [by rewrite Hsplit, last_snoc |].
  split.
  { rewrite Hs. cbn [finished with_havePreviousWinner with_reelContainer reelContainer].
    by rewrite Hduring, Hsplit; cbn; rewrite trim_reel_snoc. }
  split; [by rewrite Hs |].
  intros Hroom.
  destruct (randomLuckyMoneys_last (after_name_reveal w)) as (prize & Hprize & Hin).
  { done. }
  { by rewrite Hsn. }
  rewrite Hsn in Hin. cbn [with_currentPlayer luckyMoneyList] in Hin.
  assert (Hitems : items ≠ []).
  { intros Hnil. rewrite Hnil in Hlen. simpl in Hlen. lia. }
  destruct (exists_last Hitems) as (items' & v & Hitems').
  unfold playerLuckyMoney in Hprize. fold items in Hprize.
  rewrite Hitems', js_last_app in Hprize. subst v.
  unfold during in Hsplit. rewrite Hitems', fmap_app, app_assoc in Hsplit.
  cbn in Hsplit. apply app_inj_tail in Hsplit as [_ <-].
  split; [| done]. by rewrite Hitems', last_snoc.
Qed.

Lemma reel_holds_maxReelItems_witness :
  ∃ w1 during shown,
    spin_before_await app_world_A_X = (Some awaits_animation, w1)
    ∧ reelContainer (this w1) = Some during
    ∧ Z.of_nat (length during) = maxReelItems (this app_world_A_X)
    ∧ last during = Some shown
    ∧ reelContainer (this (after spin app_world_A_X)) = Some [shown].
Proof.
  assert (Hspin : spin app_world_A_X = (Some true, after spin app_world_A_X))
    by (vm_compute; reflexivity).
  destruct (reel_holds_maxReelItems app_world_A_X (after spin app_world_A_X) []
              Hspin)
    as (w1 & during & shown & H1 & H2 & H3 & H4 & H5 & _).
  - vm_compute. reflexivity.
  - vm_compute. reflexivity.
  - vm_compute. discriminate.
  - vm_compute. discriminate.
  - exists w1, during, shown. exact (conj H1 (conj H2 (conj H3 (conj H4 H5)))).
Defined.

Lemma pad_and_slice_no_room {A} (m : Z) (b : bool) (xs : list A) :
  (m - Number b = 0)%Z → pad_and_slice m b xs = [].
Proof.
  intros Hroom. unfold pad_and_slice, slice0. rewrite Hroom. cbn.
  replace (Z.to_nat _) with 0 by lia. done.
Qed.

(** X9. When [maxReelItems - (havePreviousWinner ? 1 : 0)] is [0] (a reel of
    one item with a previous winner on it), a draw with removal that
    resolves [true] declares no winner: [currentPlayer] is [undefined], the
    entry written to the history is ["undefined - undefined"], and yet each
    list loses its last element. *)
Theorem draw_on_full_reel (w w' : World) :
  spin w = (Some true, w') →
  shouldRemoveWinner (this w) = true →
  (maxReelItems (this w) - Number (havePreviousWinner (this w)) = 0)%Z →
  nameList (this w) ≠ [] →
  currentPlayer (this w') = None
  ∧ nameList (this w') = take (length (nameList (this w)) - 1) (nameList (this w))
  ∧ luckyMoneyList (this w')
    = take (length (luckyMoneyList (this w)) - 1) (luckyMoneyList (this w))
  ∧ drawHistory (this w')
    = drawHistory (this w) ++ ["undefined - undefined"]
      ++ (if (length (nameList (this w')) =? 0)
             && (length (luckyMoneyList (this w')) =? 0)
          then ["-------END-------"] else []).
Proof.
  intros Hspin Hremove Hroom Hne.
  destruct (spin_removal_lists w w' Hspin Hremove) as (Hcp & Hn & Hl & Hh).
  destruct (spin_summary w w' Hspin) as (_ & Hsn & _ & _ & _ & _ & _).
  assert (Hdecl : declared_name w = None).
  { unfold declared_name, randomNames.
    by rewrite (length_zero_false _ Hne), pad_and_slice_no_room. }
  assert (Hprize : playerLuckyMoney (after_name_reveal w) = None).
  { unfold playerLuckyMoney, randomLuckyMoneys.
    rewrite pad_and_slice_no_room; [done |]. by rewrite Hsn. }
  rewrite Hdecl in *. rewrite Hprize in *.
  rewrite Hcp, Hh, Hn, Hl.
  rewrite !splice1_findIndex_missing by (intros; discriminate). done.
Qed.

Lemma draw_on_full_reel_witness :
  currentPlayer (this (after spin one_item_world)) = None
  ∧ nameList (this (after spin one_item_world))
    = take (length (nameList (this one_item_world)) - 1)
        (nameList (this one_item_world)).
Proof.
  assert (Hspin : spin one_item_world = (Some true, after spin one_item_world))
    by (vm_compute; reflexivity).
  destruct (draw_on_full_reel one_item_world (after spin one_item_world) Hspin)
    as (Hcp & Hn & _).
  - vm_compute. reflexivity.
  - vm_compute. reflexivity.
  - vm_compute. discriminate.
  - exact (conj Hcp Hn).
Defined.

(** ** The order of a reel sequence *)

Section reel_sequence_order.
Context {A : Type}.
Implicit Types (xs ys : list A) (m : Z).

(** Doubling keeps a sequence a whole number of copies of [xs]. *)
Lemma pad_loop_cycles fuel m xs : ∀ ys,
  (∀ i, i < length ys → ys !! i = xs !! (i mod length xs)) →
  Nat.divide (length xs) (length ys) →
  (∀ i, i < length (pad_loop fuel m ys) →
        pad_loop fuel m ys !! i = xs !! (i mod length xs))
  ∧ Nat.divide (length xs) (length (pad_loop fuel m ys)).
Proof.
  induction fuel as [| fuel IH]; intros ys Hcycle Hdiv; simpl; [done |].
  destruct (negb _ && _); [| done].
  apply IH.
  - intros i Hi. rewrite length_app in Hi.
    destruct (decide (i < length ys)) as [Hlt | Hge].
    + rewrite lookup_app_l by done. auto.
    + rewrite lookup_app_r by lia. rewrite Hcycle by lia. f_equal.
      destruct Hdiv as [q Hq]. rewrite Hq.
      replace i with ((i - q * length xs) + q * length xs) at 2 by lia.
      by rewrite Nat.Div0.mod_add.
  - rewrite length_app. by apply Nat.divide_add_r.
Qed.

Lemma pad_lookup m xs i :
  i < length (pad m xs) → pad m xs !! i = xs !! (i mod length xs).
Proof.
  apply pad_loop_cycles; [| done].
  intros j Hj. by rewrite Nat.mod_small.
Qed.

Lemma pad_long_enough m xs : (m ≤ Z.of_nat (length xs))%Z → pad m xs = xs.
Proof.
  intros Hlen. unfold pad. destruct (Z.to_nat m) as [| fuel]; [done |]. simpl.
  destruct (negb _ && _) eqn:Hc; [| done].
  apply pad_condition_true in Hc. lia.
Qed.

Lemma pad_and_slice_lookup m (b : bool) xs i :
  xs ≠ [] → (Z.of_nat i < m - Number b)%Z →
  pad_and_slice m b xs !! i = xs !! (i mod length xs).
Proof.
  intros Hne Hi. unfold pad_and_slice, slice0.
  pose proof (pad_length m xs Hne) as Hlen.
  assert (Hb : (0 ≤ Number b ≤ 1)%Z) by (destruct b; simpl; lia).
  destruct (Z.ltb_spec (m - Number b) 0); [lia |].
  rewrite lookup_take_lt by lia. apply pad_lookup. lia.
Qed.
End reel_sequence_order.

Lemma reel_sequence_last_at {T} (m : Z) (b : bool) (shuffled : list (option T)) :
  shuffled ≠ [] → (1 ≤ m - Number b)%Z →
  js_last (pad_and_slice m b shuffled)
  = js_get shuffled ((Z.to_nat (m - Number b) - 1) mod length shuffled).
Proof.
  intros Hne Hroom.
  assert (Hb : (0 ≤ Number b ≤ 1)%Z) by (destruct b; simpl; lia).
  pose proof (pad_and_slice_length m b shuffled Hne ltac:(lia)) as Hlen.
  unfold js_last.
  destruct (length (pad_and_slice m b shuffled)) as [| i] eqn:Hl; [lia |].
  unfold js_get. rewrite pad_and_slice_lookup by (done || lia).
  do 3 f_equal. lia.
Qed.

(** X10. A reel sequence repeats the shuffled order: with a non-empty
    [shuffled] and room for at least one item, the item at place [i] is
    [shuffled[i mod shuffled.length]]; so the winner, its last item, is the
    shuffled element at place [(maxReelItems - (havePreviousWinner ? 1 : 0)
    - 1) mod shuffled.length]; and a list at least [maxReelItems] long is
    not repeated, only cut. *)
Theorem reel_sequence_cycles {T} (m : Z) (b : bool) (shuffled : list T) :
  shuffled ≠ [] → (1 ≤ m - Number b)%Z →
  (∀ i, (Z.of_nat i < m - Number b)%Z →
        pad_and_slice m b shuffled !! i = shuffled !! (i mod length shuffled))
  ∧ last (pad_and_slice m b shuffled)
    = shuffled !! ((Z.to_nat (m - Number b) - 1) mod length shuffled)
  ∧ ((m ≤ Z.of_nat (length shuffled))%Z →
     pad_and_slice m b shuffled = take (Z.to_nat (m - Number b)) shuffled).
Proof.
  intros Hne Hroom.
  assert (Hb : (0 ≤ Number b ≤ 1)%Z) by (destruct b; simpl; lia).
  split; [intros i Hi; by apply pad_and_slice_lookup |]. split.
  - pose proof (pad_and_slice_length m b shuffled Hne ltac:(lia)) as Hlen.
    rewrite last_lookup, pad_and_slice_lookup by (done || lia).
    do 2 f_equal. lia.
  - intros Hlong. unfold pad_and_slice, slice0. rewrite pad_long_enough by done.
    destruct (Z.ltb_spec (m - Number b) 0); [lia |].
    f_equal. lia.
Qed.

Lemma reel_sequence_cycles_witness :
  last (pad_and_slice 40 true ["A"; "B"; "C"]) = Some "C"
  ∧ pad_and_slice 2 false ["A"; "B"; "C"] = ["A"; "B"].
Proof.
  destruct (reel_sequence_cycles 40 true ["A"; "B"; "C"]) as (_ & Hlast & _).
  - discriminate.
  - vm_compute. discriminate.
  - destruct (reel_sequence_cycles 2 false ["A"; "B"; "C"]) as (_ & _ & Hcut).
    + discriminate.
    + vm_compute. discriminate.
    + split; [exact Hlast |]. apply Hcut. vm_compute. discriminate.
Defined.

(** ** The orders a shuffle can give *)

Lemma scale_floor_pick i n : i < n → scale_floor (pick i n) n = i.
Proof.
  intros Hi. unfold scale_floor, pick. cbn [numer gap].
  replace (N.of_nat i + N.of_nat (n - i - 1) + 1)%N with (N.of_nat n) by lia.
  rewrite N.div_mul by lia. lia.
Qed.

Section shuffle_reach.
Context {T : Type}.
Implicit Types (array : list T) (keys : list (option nat)) (ks : list nat).

(** The loop reads the random stream at the [n] places from [pos] only. *)
Lemma shuffle_loop_ext rnd rnd' n : ∀ k array keys (result : list (option T)) pos,
  (∀ p, pos ≤ p < pos + n → rnd p = rnd' p) →
  shuffle_loop rnd n k array keys result pos
  = shuffle_loop rnd' n k array keys result pos.
Proof.
  induction n as [| n' IH]; intros k array keys result pos Hsame; simpl; [done |].
  destruct (k <? length array); [| done].
  rewrite (Hsame pos) by lia. apply IH. intros p Hp. apply Hsame. lia.
Qed.

(** The loop can pick the indices it still holds in any order. *)
Lemma shuffle_loop_reaches array n : ∀ k keys (result : list (option T)) pos ks tgt,
  take n keys = Some <$> ks →
  n ≤ length keys →
  k + n = length array →
  tgt ≡ₚ ks →
  ∃ rnd,
    shuffle_loop rnd n k array keys result pos
    = (array, result ++ ((array !!.) <$> tgt), pos + n).
Proof.
  induction n as [| n' IH]; intros k keys result pos ks tgt Hks Hn Hk Htgt.
  - exists (λ _, zero). simpl.
    rewrite take_0 in Hks. symmetry in Hks. apply fmap_nil_inv in Hks. subst ks.
    apply Permutation_nil_r in Htgt. subst tgt.
    by rewrite app_nil_r, Nat.add_0_r.
  - assert (Hlen : length ks = S n').
    { apply (f_equal length) in Hks.
      rewrite length_take, length_fmap in Hks. lia. }
    destruct tgt as [| j tgt'].
    { apply Permutation_length in Htgt. simpl in Htgt. lia. }
    assert (Hin : j ∈ ks) by (rewrite <- Htgt; apply list_elem_of_here).
    apply list_elem_of_lookup in Hin as [i Hj].
    pose proof (lookup_lt_Some _ _ _ Hj) as Hi.
    destruct (lookup_lt_is_Some_2 ks n') as [t Ht]; [lia |].
    assert (Hkeys : ∀ m x, ks !! m = Some x → keys !! m = Some (Some x)).
    { intros m x Hm. pose proof (lookup_lt_Some _ _ _ Hm).
      rewrite <- (lookup_take_lt keys (S n')) by lia.
      by rewrite Hks, list_lookup_fmap, Hm. }
    pose proof (swap_out_Permutation ks n' i j t Hlen ltac:(lia) Hj Ht) as Hsw.
    destruct (IH (k + 1) (<[i:=Some t]> (<[n':=Some j]> keys))
                (result ++ [array !! j]) (S pos)
                (<[i:=t]> (take n' ks)) tgt') as (rnd' & Hrun).
    + rewrite list_fmap_insert, fmap_take, <- Hks, take_take, Nat.min_l by lia.
      rewrite take_insert. destruct (decide (i < n')) as [Hlt | Hge].
      * by rewrite take_insert_ge.
      * rewrite take_insert_ge by done.
        rewrite list_insert_ge; [done | rewrite length_take; lia].
    + rewrite !length_insert. lia.
    + lia.
    + apply (Permutation_cons_inv (a := j)). by rewrite Htgt.
    + exists (λ p, if decide (p = pos) then pick i (S n') else rnd' p).
      cbn [shuffle_loop].
      destruct (Nat.ltb_spec k (length array)) as [_ | ?]; [| lia].
      rewrite decide_True by done. rewrite scale_floor_pick by lia.
      rewrite (js_get_Some keys i (Some j)) by auto.
      rewrite (js_get_Some keys n' (Some t)) by auto.
      rewrite (js_set_in_range keys) by lia.
      rewrite js_set_in_range by (rewrite length_insert; lia).
      cbn [mbind option_bind].
      rewrite (shuffle_loop_ext _ rnd').
      * rewrite Hrun. rewrite <- app_assoc. cbn. f_equal. lia.
      * intros p Hp. rewrite decide_False by lia. done.
Qed.

(** An order of the elements is an order of their indices. *)
Lemma indices_of_Permutation array (order : list T) :
  order ≡ₚ array →
  ∃ tgt, tgt ≡ₚ seq 0 (length array) ∧ (array !!.) <$> tgt = Some <$> order.
Proof.
  intros Hperm. pose proof (Permutation_length Hperm) as Hlen.
  apply Permutation_inj in Hperm as (_ & f & Hinj & Hf).
  exists (f <$> seq 0 (length order)). split.
  - rewrite <- Hlen. apply submseteq_length_Permutation.
    + apply NoDup_submseteq.
      * apply NoDup_fmap_2; [done | apply NoDup_seq].
      * intros x (i & -> & Hi)%list_elem_of_fmap.
        apply elem_of_seq in Hi. apply elem_of_seq.
        destruct (lookup_lt_is_Some_2 order i ltac:(lia)) as [v Hv].
        rewrite Hf in Hv. apply lookup_lt_Some in Hv. lia.
    + by rewrite length_fmap.
  - rewrite <- list_fmap_compose, <- lookup_all_indices.
    apply list_fmap_ext. intros _ i _. simpl. by rewrite Hf.
Qed.

Lemma shuffleNames_reaches array (order : list T) pos :
  order ≡ₚ array →
  ∃ rnd, shuffleNames rnd array pos = (array, Some <$> order, pos + length array).
Proof.
  intros Hperm.
  destruct (indices_of_Permutation array order Hperm) as (tgt & Htgt & Hread).
  unfold shuffleNames, Object_keys. rewrite length_fmap, length_seq.
  destruct (shuffle_loop_reaches array (length array) 0
              (Some <$> seq 0 (length array)) [] pos (seq 0 (length array)) tgt)
    as (rnd & Hrun).
  - rewrite take_ge; [done | rewrite length_fmap, length_seq; lia].
  - rewrite length_fmap, length_seq. lia.
  - done.
  - done.
  - exists rnd. by rewrite Hrun, Hread.
Qed.
End shuffle_reach.

(** X11. Every order of the array is an outcome of the shuffle: for each
    permutation of [array] there is a sequence of values of [Math.random()]
    for which [shuffleNames] (and [shuffleLuckyMoneys], the same code)
    returns exactly that permutation, having read one value per element. *)
Theorem shuffle_reaches_every_order {T} (array order : list T) (pos : nat) :
  order ≡ₚ array →
  ∃ rnd,
    shuffleNames rnd array pos = (array, Some <$> order, pos + length array)
    ∧ shuffleLuckyMoneys rnd array pos
      = (array, Some <$> order, pos + length array).
Proof.
  intros Hperm. destruct (shuffleNames_reaches array order pos Hperm) as (rnd & Hrun).
  exists rnd. split; exact Hrun.
Qed.

Lemma shuffle_reaches_every_order_witness :
  ∃ rnd,
    shuffleNames rnd ["A"; "B"; "C"] 0
    = (["A"; "B"; "C"], [Some "B"; Some "A"; Some "C"], 3).
Proof.
  destruct (shuffle_reaches_every_order ["A"; "B"; "C"] ["B"; "A"; "C"] 0)
    as (rnd & Hrun & _).
  - apply perm_swap.
  - exists rnd. exact Hrun.
Defined.

(** ** The outcomes a draw can have *)

Lemma shuffleNames_ext {T} rnd rnd' (array : list T) pos :
  (∀ p, pos ≤ p < pos + length array → rnd p = rnd' p) →
  shuffleNames rnd array pos = shuffleNames rnd' array pos.
Proof.
  intros Hsame. unfold shuffleNames, Object_keys.
  apply shuffle_loop_ext. by rewrite length_fmap, length_seq.
Qed.

(** A list can be reordered to bring any of its elements to any place. *)
Lemma order_with_at {T} (l : list T) (x : T) (j : nat) :
  x ∈ l → j < length l → ∃ order, order ≡ₚ l ∧ order !! j = Some x.
Proof.
  intros [rest Hrest]%elem_of_Permutation Hj.
  pose proof (Permutation_length Hrest) as Hlen. simpl in Hlen.
  exists (take j rest ++ x :: drop j rest). split.
  - rewrite Hrest, <- Permutation_middle. by rewrite take_drop.
  - rewrite lookup_app_r by (rewrite length_take; lia).
    rewrite length_take. by replace (j - j `min` length rest) with 0 by lia.
Qed.

(** A shuffle whose outcome ends a reel sequence on [x]. *)
Lemma reel_sequence_ends_on {T} (pool : list T) (x : T) (m : Z) (b : bool) pos :
  x ∈ pool → (1 ≤ m - Number b)%Z →
  ∃ rnd, js_last (pad_and_slice m b (shuffleNames rnd pool pos).1.2) = Some x.
Proof.
  intros Hx Hroom.
  assert (Hne : pool ≠ []) by (intros ->; by apply elem_of_nil in Hx).
  assert (Hpos : 0 < length pool) by (destruct pool; [done | simpl; lia]).
  set (j := (Z.to_nat (m - Number b) - 1) mod length pool).
  destruct (order_with_at pool x j Hx) as (order & Hperm & Hat).
  { apply Nat.mod_upper_bound. lia. }
  destruct (shuffleNames_reaches pool order pos Hperm) as (rnd & Hrun).
  exists rnd. rewrite Hrun. cbn [fst snd].
  rewrite reel_sequence_last_at; [| | done].
  - rewrite length_fmap, (Permutation_length Hperm). fold j.
    apply js_get_Some. by rewrite list_lookup_fmap, Hat.
  - intros Hnil. apply fmap_nil_inv in Hnil. subst order.
    by apply Permutation_nil_l in Hperm.
Qed.

(** X12. Every pair can come out: on a page with what a draw needs and a
    reel with room for one new item, for each name of [nameList] and each
    prize of [luckyMoneyList] there are values of [Math.random()] for which
    [spin()] resolves [true] with that name as [currentPlayer] and that prize
    reported with it, and, with removal, writes their pair to the history. *)
Theorem every_pair_can_be_drawn (w : World) (name prize : string) :
  is_Some (reelContainer (this w)) → is_Some (reelAnimation (this w)) →
  is_Some (current_player_text w) →
  name ∈ nameList (this w) → prize ∈ luckyMoneyList (this w) →
  (1 ≤ maxReelItems (this w) - Number (havePreviousWinner (this w)))%Z →
  ∃ rnd w',
    spin (with_random rnd w) = (Some true, w')
    ∧ currentPlayer (this w') = Some name
    ∧ console_log "Result: " [Some name; Some prize]
      ∈ new_events (with_random rnd w) w'
    ∧ (shouldRemoveWinner (this w) = true →
       drawHistory (this w')
       = drawHistory (this w) ++ [name +:+ " - " +:+ prize]
         ++ (if (length (nameList (this w')) =? 0)
                && (length (luckyMoneyList (this w')) =? 0)
             then ["-------END-------"] else [])).
Proof.
  intros Hreel Hanim Htext Hname Hprize Hroom.
  set (n := length (nameList (this w))).
  destruct (reel_sequence_ends_on (nameList (this w)) name (maxReelItems (this w))
              (havePreviousWinner (this w)) (drawn w) Hname Hroom)
    as (rnd1 & Hlast1).
  destruct (reel_sequence_ends_on (luckyMoneyList (this w)) prize
              (maxReelItems (this w)) (havePreviousWinner (this w))
              (drawn w + 7 * n) Hprize Hroom)
    as (rnd2 & Hlast2).
  set (rnd := λ p, if decide (p < drawn w + n) then rnd1 p else rnd2 p).
  set (W := with_random rnd w).
  assert (Hne : nameList (this w) ≠ []) by (intros Hnil; rewrite Hnil in Hname; by apply elem_of_nil in Hname).
  assert (Hcan : can_spin W).
  { unfold can_spin. split; [| done]. cbn. by intros [? _]. }
  destruct (spin_run W Hcan) as (w1 & w' & _ & _ & Hspin & _).
  destruct (spin_summary W w' Hspin) as (_ & Hsn & Hrn & Hdn & _ & Hs & _).
  assert (Hdecl : declared_name W = Some name).
  { unfold declared_name, randomNames. cbn [W with_random this random drawn].
    rewrite (length_zero_false _ Hne).
    rewrite (shuffleNames_ext rnd rnd1); [done |].
    intros p Hp. unfold rnd. by rewrite decide_True by (unfold n; lia). }
  assert (Hplm : playerLuckyMoney (after_name_reveal W) = Some prize).
  { unfold playerLuckyMoney, randomLuckyMoneys. rewrite Hsn, Hrn, Hdn.
    cbn [W with_random this random drawn with_currentPlayer maxReelItems
         havePreviousWinner luckyMoneyList nameList].
    unfold shuffleLuckyMoneys. fold (shuffleNames rnd (luckyMoneyList (this w))
                                       (drawn w + 7 * length (nameList (this w)))).
    rewrite (shuffleNames_ext rnd rnd2); [done |].
    intros p Hp. unfold rnd. by rewrite decide_False by (unfold n; lia). }
  assert (Hcp : currentPlayer (this w') = Some name).
  { rewrite Hs. cbn [finished with_havePreviousWinner with_reelContainer currentPlayer].
    by rewrite at_await_currentPlayer, Hsn. }
  exists rnd, w'. split; [done |]. split; [done |]. split.
  - pose proof (winner_prize_logged W w' Hspin) as Hlog.
    by rewrite Hcp, Hplm in Hlog.
  - intros Hremove.
    destruct (spin_removal_lists W w' Hspin Hremove) as (_ & _ & _ & Hh).
    by rewrite Hdecl, Hplm in Hh.
Qed.

Lemma every_pair_can_be_drawn_witness :
  ∃ rnd w',
    spin (with_random rnd
            (after (set_names ["A"; "B"];; set_luckyMoneys ["X"; "Y"])
               (app_world (λ _, zero))))
    = (Some true, w')
    ∧ currentPlayer (this w') = Some "B".
Proof.
  destruct (every_pair_can_be_drawn
              (after (set_names ["A"; "B"];; set_luckyMoneys ["X"; "Y"])
                 (app_world (λ _, zero))) "B" "X")
    as (rnd & w' & Hspin & Hcp & _).
  - vm_compute. eexists. reflexivity.
  - vm_compute. eexists. reflexivity.
  - vm_compute. eexists. reflexivity.
  - vm_compute. apply list_elem_of_further, list_elem_of_here.
  - vm_compute. apply list_elem_of_here.
  - vm_compute. discriminate.
  - exists rnd, w'. exact (conj Hspin Hcp).
Defined.

(** ** The name reveal on its own *)

Lemma waited_timers count : ∀ i,
  waited ((λ j, setTimeout (20 * (j + 1))) <$> seq i count)
  = 10 * count * (2 * i + count + 1).
Proof.
  unfold waited.
  induction count as [| count IH]; intros i; [done |].
  cbn [seq]. rewrite fmap_cons. cbn [omap list_omap sum_list sum_list_with].
  rewrite IH. unfold id. nia.
Qed.

(** X13. Called on its own with names and a [#current-player] element,
    [spinName()] resolves [true]: of the engine only [currentPlayer] changes,
    and the element shows it between stars; on a reel with room for one item
    it is the last element of [randomNames], a name of the list.  No callback
    is called; the cycling sets [6 n] timers that add up to [60 n (6 n + 1)]
    milliseconds for [n] names, and [7 n] random numbers are taken. *)
Theorem spinName_reveals (w : World) :
  nameList (this w) ≠ [] → is_Some (current_player_text w) →
  ∃ w', spinName w = (Some true, w')
        ∧ this w' = with_currentPlayer (currentPlayer (this w')) (this w)
        ∧ current_player_text w'
          = Some ("⭐️ " +:+ to_string (currentPlayer (this w')) +:+ " ⭐️")
        ∧ length (new_events w w') = 6 * length (nameList (this w))
        ∧ invoked (new_events w w') = []
        ∧ waited (new_events w w')
          = 60 * length (nameList (this w)) * (6 * length (nameList (this w)) + 1)
        ∧ drawn w' = drawn w + 7 * length (nameList (this w))
        ∧ ((1 ≤ maxReelItems (this w) - Number (havePreviousWinner (this w)))%Z →
           last (randomNames w) = Some (currentPlayer (this w'))
           ∧ ∃ name, currentPlayer (this w') = Some name ∧ name ∈ nameList (this w)).
Proof.
  intros Hne Htext.
  destruct (spinName_run w Hne Htext) as (w' & Hrun & Hto & Hshown).
  pose proof (run_to_new_events _ _ _ _ _ Hto) as Hnew.
  destruct Hto as (Hs & _ & _ & Hd & _).
  assert (Hev : name_reveal_events w
                = (λ j, setTimeout (20 * (j + 1)))
                  <$> seq 0 (length (nameList (this w)) * 6)).
  { unfold name_reveal_events. by rewrite (length_zero_false _ Hne). }
  exists w'. rewrite Hnew. split; [done |].
  split; [by rewrite Hs |].
  split; [by rewrite Hs |].
  split; [rewrite Hev, length_fmap, length_seq; lia |].
  split; [apply invoked_name_reveal_events |].
  split; [rewrite Hev, waited_timers; nia |].
  split; [done |].
  intros Hroom. rewrite Hs. cbn [with_currentPlayer currentPlayer]. split.
  - symmetry. apply js_last_is_last. by apply randomNames_nonempty.
  - by apply randomNames_last.
Qed.

Lemma spinName_reveals_witness :
  ∃ w', spinName app_world_A_X = (Some true, w')
        ∧ current_player_text w' = Some "⭐️ A ⭐️"
        ∧ waited (new_events app_world_A_X w') = 420.
Proof.
  destruct (spinName_reveals app_world_A_X)
    as (w' & Hrun & Hs & Ht & _ & _ & Hw & _ & Hlast).
  - vm_compute. discriminate.
  - vm_compute. eexists. reflexivity.
  - exists w'. split; [exact Hrun |]. split; [| exact Hw].
    destruct Hlast as [Hlast _]; [vm_compute; discriminate |].
    assert (Hcp : currentPlayer (this w') = Some "A").
    { apply (inj Some). rewrite <- Hlast. vm_compute. reflexivity. }
    rewrite Ht, Hcp. reflexivity.
Defined.

(** X14. With names, [beforeSpin()] resolves [true] and leaves the engine
    exactly as [spinName()] would from the same state: only [currentPlayer]
    changes, to the same winner (on a reel with room for one item, the last
    element of [randomNames]).  But it calls [onSpinStart], takes only the
    [n] random numbers of the shuffle, sets no timer and never touches the
    [#current-player] element, which need not exist. *)
Theorem beforeSpin_picks_as_spinName (w : World) :
  nameList (this w) ≠ [] →
  ∃ w', beforeSpin w = (Some true, w')
        ∧ this w' = with_currentPlayer (currentPlayer (this w')) (this w)
        ∧ (is_Some (current_player_text w) → this w' = this (after spinName w))
        ∧ ((1 ≤ maxReelItems (this w) - Number (havePreviousWinner (this w)))%Z →
           last (randomNames w) = Some (currentPlayer (this w'))
           ∧ ∃ name, currentPlayer (this w') = Some name ∧ name ∈ nameList (this w))
        ∧ current_player_text w' = current_player_text w
        ∧ new_events w w' = invoke <$> option_list (onSpinStart (this w))
        ∧ random w' = random w
        ∧ drawn w' = drawn w + length (nameList (this w)).
Proof.
  intros Hne. unfold beforeSpin.
  rewrite get_this_bind, (length_zero_false _ Hne).
  destruct (notify_run (onSpinStart (this w)) w)
    as (w0 & Hnotify & (Hs0 & He0 & Hr0 & Hd0 & _) & Htext0).
  rewrite (bind_Some _ _ _ _ _ Hnotify).
  destruct (call_shuffleNames_run w0) as (shuffled & Hrun & -> & _).
  rewrite (bind_Some _ _ _ _ _ Hrun).
  rewrite get_this_bind, modify_this_bind.
  cbn [this with_drawn with_this]. fold (randomNames w0).
  rewrite (randomNames_ext w0 w) by (done || lia).
  eexists. split; [reflexivity |].
  cbn [this with_this with_drawn current_player_text events random drawn].
  rewrite Hs0. split; [done |]. split; [| split; [| split; [done |]; split; [| split]]].
  - intros Htext.
    destruct (spinName_run w Hne Htext) as (w' & Hname & (Hs & _) & _).
    unfold after. by rewrite Hname.
  - intros Hroom. cbn [with_currentPlayer currentPlayer]. split.
    + symmetry. apply js_last_is_last. by apply randomNames_nonempty.
    + by apply randomNames_last.
  - unfold new_events. cbn. by rewrite He0, drop_app_length.
  - done.
  - lia.
Qed.

Lemma beforeSpin_picks_as_spinName_witness :
  ∃ w', beforeSpin (without_player_element app_world_A_X) = (Some true, w')
        ∧ current_player_text w' = None
        ∧ drawn w' = 1.
Proof.
  destruct (beforeSpin_picks_as_spinName (without_player_element app_world_A_X))
    as (w' & Hrun & _ & _ & _ & Ht & _ & _ & Hd).
  - vm_compute. discriminate.
  - exists w'. split; [exact Hrun |]. rewrite Ht, Hd. split; vm_compute; reflexivity.
Defined.

(** ** A round, pair by pair *)

(** One draw with removal from two non-empty lists, on a reel of two items
    or more: a name and a prize leave their lists and make the entry. *)
Lemma spin_with_removal_pair w :
  can_spin w → is_Some (current_player_text w) →
  shouldRemoveWinner (this w) = true → (2 ≤ maxReelItems (this w))%Z →
  nameList (this w) ≠ [] → luckyMoneyList (this w) ≠ [] →
  ∃ w' name prize,
    spin w = (Some true, w')
    ∧ nameList (this w) ≡ₚ name :: nameList (this w')
    ∧ luckyMoneyList (this w) ≡ₚ prize :: luckyMoneyList (this w')
    ∧ drawHistory (this w')
      = drawHistory (this w) ++ [name +:+ " - " +:+ prize]
        ++ (if (length (nameList (this w')) =? 0)
               && (length (luckyMoneyList (this w')) =? 0)
            then ["-------END-------"] else []).
Proof.
  intros Hcan Htext Hremove Hmax Hne Hpe.
  destruct (spin_run w Hcan) as (_ & w' & _ & _ & Hspin & _).
  destruct (spin_removal_lists w w' Hspin Hremove) as (_ & Hn & Hl & Hh).
  destruct (spin_summary w w' Hspin) as (_ & Hsn & _ & _ & _ & _ & _).
  assert (Hroom : (1 ≤ maxReelItems (this w) - Number (havePreviousWinner (this w)))%Z).
  { destruct (havePreviousWinner (this w)); simpl; lia. }
  destruct (randomNames_last w Hne Hroom) as (name & Hlast & Hin).
  assert (Hdecl : declared_name w = Some name).
  { unfold declared_name. by rewrite (length_zero_false _ Hne). }
  destruct (randomLuckyMoneys_last (after_name_reveal w)) as (prize & Hplm & Hpin).
  { by rewrite Hsn. }
  { by rewrite Hsn. }
  rewrite Hsn in Hpin. cbn [luckyMoneyList with_currentPlayer] in Hpin.
  rewrite Hdecl, Hplm in Hh. rewrite Hdecl in Hn. rewrite Hplm in Hl.
  destruct (splice1_findIndex_elem name _ Hin) as (l1 & l2 & Hsplit & _ & Hcut).
  destruct (splice1_findIndex_elem prize _ Hpin) as (p1 & p2 & Hpsplit & _ & Hpcut).
  exists w', name, prize. split; [done |]. split; [| split; [| exact Hh]].
  - rewrite Hn, Hcut, Hsplit. by rewrite Permutation_middle.
  - rewrite Hl, Hpcut, Hpsplit. by rewrite Permutation_middle.
Qed.

(** X15. A round pairs everyone off: with removal on, a reel of two items
    or more and as many prizes as names, [n] of each, [n] draws in a row all
    resolve [true], and the entries they write are the pairs of an order of
    the names with an order of the prizes, so every name wins exactly as
    often as it is listed and every prize is given exactly as often as it is
    listed; the end-of-round line follows the last pair. *)
Theorem round_pairs_everyone (n : nat) : ∀ w : World,
  is_Some (reelContainer (this w)) → is_Some (reelAnimation (this w)) →
  is_Some (current_player_text w) →
  shouldRemoveWinner (this w) = true → (2 ≤ maxReelItems (this w))%Z →
  0 < n →
  length (nameList (this w)) = n → length (luckyMoneyList (this w)) = n →
  ∃ w' winners given,
    draws n w = (Some (replicate n true), w')
    ∧ winners ≡ₚ nameList (this w)
    ∧ given ≡ₚ luckyMoneyList (this w)
    ∧ drawHistory (this w')
      = drawHistory (this w)
        ++ zip_with (λ name prize, name +:+ " - " +:+ prize) winners given
        ++ ["-------END-------"].
Proof.
  induction n as [| n IH]; intros w Hreel Hanim Htext Hremove Hmax Hpos Hln Hlp;
    [lia |].
  assert (Hne : nameList (this w) ≠ []) by (intros H; by rewrite H in Hln).
  assert (Hpe : luckyMoneyList (this w) ≠ []) by (intros H; by rewrite H in Hlp).
  assert (Hcan : can_spin w).
  { unfold can_spin. repeat split; try done. by intros [? _]. }
  destruct (spin_with_removal_pair w Hcan Htext Hremove Hmax Hne Hpe)
    as (w1 & name & prize & Hspin & Hn1 & Hl1 & Hh1).
  destruct (spin_keeps_page w w1 Hspin Htext)
    as (Hreel1 & Hanim1 & Htext1 & Hm1 & Hr1 & _).
  pose proof (Permutation_length Hn1) as Hlen1.
  pose proof (Permutation_length Hl1) as Hlen2.
  simpl in Hlen1, Hlen2.
  cbn [draws]. rewrite (bind_Some _ _ _ _ _ Hspin).
  destruct n as [| n].
  - assert (Hn0 : nameList (this w1) = []) by (apply length_zero_iff_nil; lia).
    assert (Hl0 : luckyMoneyList (this w1) = []) by (apply length_zero_iff_nil; lia).
    rewrite Hn0, Hl0 in Hh1. cbn in Hh1.
    exists w1, [name], [prize]. cbn.
    split; [done |]. split; [by rewrite Hn1, Hn0 |].
    split; [by rewrite Hl1, Hl0 | done].
  - destruct (IH w1 Hreel1 Hanim1 Htext1 ltac:(by rewrite Hr1)
                ltac:(by rewrite Hm1) ltac:(lia) ltac:(lia) ltac:(lia))
      as (w' & winners & given & Hdraws & Hw & Hg & Hh').
    rewrite (bind_Some _ _ _ _ _ Hdraws).
    exists w', (name :: winners), (prize :: given). cbn.
    split; [done |]. split; [by rewrite Hn1, Hw |].
    split; [by rewrite Hl1, Hg |].
    rewrite Hh', Hh1.
    assert (Hnot : (length (nameList (this w1)) =? 0)
                   && (length (luckyMoneyList (this w1)) =? 0) = false).
    { apply not_true_iff_false. rewrite both_empty_iff. intros [Ha Hb].
      rewrite Ha in Hlen1. simpl in Hlen1. lia. }
    rewrite Hnot. by rewrite <- !app_assoc.
Qed.

Lemma round_pairs_everyone_witness :
  ∃ w' winners given,
    draws 2 (after (set_names ["A"; "B"];; set_luckyMoneys ["X"; "Y"])
               (app_world (λ _, zero)))
    = (Some [true; true], w')
    ∧ winners ≡ₚ ["A"; "B"]
    ∧ given ≡ₚ ["X"; "Y"]
    ∧ drawHistory (this w')
      = zip_with (λ name prize, name +:+ " - " +:+ prize) winners given
        ++ ["-------END-------"].
Proof.
  destruct (round_pairs_everyone 2
              (after (set_names ["A"; "B"];; set_luckyMoneys ["X"; "Y"])
                 (app_world (λ _, zero))))
    as (w' & winners & given & Hdraws & Hw & Hg & Hh).
  - vm_compute. eexists. reflexivity.
  - vm_compute. eexists. reflexivity.
  - vm_compute. eexists. reflexivity.
  - vm_compute. reflexivity.
  - vm_compute. discriminate.
  - lia.
  - vm_compute. reflexivity.
  - vm_compute. reflexivity.
  - exists w', winners, given.
    exact (conj Hdraws (conj Hw (conj Hg Hh))).
Defined.

(** ** The cycling display *)

(** X16. While [spinName] cycles, the [#current-player] element always
    shows ["Selecting... "] followed by a name of the list, never
    [undefined]: after any number of turns of the loop, one or more, the text
    is that of some element of [nameList]. *)
Theorem cycling_shows_listed_names (count : nat) : ∀ (i : nat) (w : World),
  0 < count → nameList (this w) ≠ [] → is_Some (current_player_text w) →
  ∃ name,
    name ∈ nameList (this w)
    ∧ current_player_text (after (selecting_loop count i) w)
      = Some ("Selecting... " +:+ name).
Proof.
  induction count as [| count IH]; intros i w Hpos Hne Htext; [lia |].
  unfold after. cbn [selecting_loop].
  rewrite get_this_bind, Math_random_bind, set_textContent_bind, emit_bind by done.
  set (at_ := scale_floor (random w (drawn w)) (length (nameList (this w)))).
  assert (Hlt : at_ < length (nameList (this w))).
  { apply scale_floor_lt. destruct (nameList (this w)); [done | simpl; lia]. }
  destruct (lookup_lt_is_Some_2 _ _ Hlt) as [name Hname].
  rewrite Hname. cbn [to_string].
  destruct count as [| count].
  - exists name. split; [by apply list_elem_of_lookup_2 in Hname | done].
  - match goal with |- context [selecting_loop (S count) (i + 1) ?w1] =>
      destruct (IH (i + 1) w1) as (name' & Hin & Hshown);
        [lia | done | by eexists |]
    end.
    exists name'. split; [exact Hin | exact Hshown].
Qed.

Lemma cycling_shows_listed_names_witness :
  ∃ name,
    name ∈ nameList (this app_world_A_X)
    ∧ current_player_text (after (selecting_loop 6 0) app_world_A_X)
      = Some ("Selecting... " +:+ name).
Proof.
  apply (cycling_shows_listed_names 6 0 app_world_A_X).
  - lia.
  - discriminate.
  - by eexists.
Defined.
